(** * ChatRoom: the session / broadcast core of the chat Durable Object

    A shallow embedding of [ChatRoom] (chat-room.ts): the [sessions] map, the
    [Session] objects it shares with the listeners' closures, [fetch],
    [handleSession] with its three listeners, [broadcast] and
    [broadcastUserList].  The platform (JSON, the clock, the transport's
    [send]) is a parameter of the development. *)

From Stdlib Require Import String Ascii NArith.
From stdpp Require Import base tactics option list numbers sorting.

Set Default Proof Using "Type".
Open Scope list_scope.

(** ** JavaScript strings

    A JavaScript string is a sequence of 16-bit code units. *)

Definition js_string := list N.

(** The code units of an ASCII literal of the source. *)
Definition lit (s : string) : js_string :=
  List.map N_of_ascii (list_ascii_of_string s).

(** [WhiteSpace] and [LineTerminator] of ECMAScript, the code units that
    [String.prototype.trim] strips. *)
Definition is_white_space (c : N) : bool :=
  ((9 <=? c) && (c <=? 13) || (c =? 32) || (c =? 160) || (c =? 5760)
   || (8192 <=? c) && (c <=? 8202) || (c =? 8232) || (c =? 8233)
   || (c =? 8239) || (c =? 8287) || (c =? 12288) || (c =? 65279))%N.

Fixpoint trim_start (s : js_string) : js_string :=
  match s with
  | [] => []
  | c :: rest => if is_white_space c then trim_start rest else s
  end.

Definition trim_end (s : js_string) : js_string :=
  rev (trim_start (rev s)).

Definition trim (s : js_string) : js_string :=
  trim_end (trim_start s).

(** ** JavaScript values seen by the message listener

    What [JSON.parse] can return, and [undefined], which reading an absent
    property gives. *)

(** A number [JSON.parse] can return: the finite double [m * 2^e], or an
    infinity (from a literal out of range such as 1e999). *)
Inductive JsNumber :=
| Finite (m e : Z)
| Infinite (negative : bool).

#[local] Unset Elimination Schemes.
Inductive JsValue :=
| JUndefined
| JNull
| JBool (b : bool)
| JNumber (n : JsNumber)
| JString (s : js_string)
| JArray (items : list JsValue)
| JObject (fields : list (js_string * JsValue)).
#[local] Set Elimination Schemes.

(** The own properties of an object made by [JSON.parse], one entry per
    key. *)
Fixpoint own_property (key : js_string) (fields : list (js_string * JsValue))
  : JsValue :=
  match fields with
  | [] => JUndefined
  | (k, v) :: rest => if decide (k = key) then v else own_property key rest
  end.

(** [data.key] for a key that no prototype defines ([type], [text], [id]):
    [None] is the TypeError thrown on [null] and [undefined]. *)
Definition get_property (data : JsValue) (key : js_string) : option JsValue :=
  match data with
  | JUndefined | JNull => None
  | JObject fields => Some (own_property key fields)
  | JBool _ | JNumber _ | JString _ | JArray _ => Some JUndefined
  end.

(** ToBoolean. *)
Definition truthy (v : JsValue) : bool :=
  match v with
  | JUndefined | JNull => false
  | JBool b => b
  | JNumber (Finite m _) => negb (m =? 0)%Z
  | JNumber (Infinite _) => true
  | JString s => negb (bool_decide (s = []))
  | JArray _ | JObject _ => true
  end.

(** [v === 'literal']. *)
Definition strict_eq_string (v : JsValue) (s : js_string) : bool :=
  match v with
  | JString s' => bool_decide (s' = s)
  | _ => false
  end.

(** ** The data model of chat-room.ts *)

(** Identity of a [WebSocket] object. *)
Definition WebSocket := nat.

(** Address of a [Session] object. *)
Definition ref := nat.

Record Session := mkSession {
  webSocket : WebSocket;
  username : js_string;
  quit : bool;
}.

Global Instance Session_inhabited : Inhabited Session :=
  populate (mkSession 0 [] false).

(** [ServerMessage].  The declared type of [text] and [id] is [string], but
    the listener copies [data.text] and [data.id] as parsed. *)
Inductive ServerMessage :=
| ChatMessage (username : js_string) (text : JsValue) (timestamp : js_string)
| UserListMessage (users : list js_string)
| ErrorMessage (message : js_string)
| PongMessage (timestamp : js_string) (id : JsValue) (serverTime : js_string).

(** [msg.data] of a message event. *)
Inductive MessageData :=
| Text (s : js_string)
| Binary.

(** What the platform observes of a reaction, in order. *)
Inductive Effect :=
| Accept (ws : WebSocket)
| Stringify (message : ServerMessage)
| Send (ws : WebSocket) (payload : js_string) (ok : bool).

(** The variables the three listeners of one [handleSession] call close
    over. *)
Record Closure := mkClosure {
  c_webSocket : WebSocket;
  c_session : ref;
  c_username : js_string;
}.

Record World := mkWorld {
  sessions : list (WebSocket * ref);
    (** [this.sessions]: a [Map] in insertion order; values are addresses *)
  heap : list Session;
    (** the [Session] objects, by address *)
  listeners : list Closure;
    (** listeners added so far, in order *)
  sockets : nat;
    (** [WebSocket] objects created so far *)
  ticks : nat;
    (** readings of the clock so far *)
  trace : list Effect;
}.

Definition init : World := mkWorld [] [] [] 0 0 [].

Definition set_sessions (m : list (WebSocket * ref)) (w : World) : World :=
  mkWorld m (heap w) (listeners w) (sockets w) (ticks w) (trace w).

Definition set_heap (h : list Session) (w : World) : World :=
  mkWorld (sessions w) h (listeners w) (sockets w) (ticks w) (trace w).

Definition log (e : Effect) (w : World) : World :=
  mkWorld (sessions w) (heap w) (listeners w) (sockets w) (ticks w)
          (trace w ++ [e]).

Definition add_listener (c : Closure) (w : World) : World :=
  mkWorld (sessions w) (heap w) (listeners w ++ [c]) (sockets w) (ticks w)
          (trace w).

(** [Map.prototype.set]: an existing key keeps its place. *)
Fixpoint Map_set (k : WebSocket) (v : ref) (m : list (WebSocket * ref))
  : list (WebSocket * ref) :=
  match m with
  | [] => [(k, v)]
  | (k', v') :: rest =>
      if decide (k' = k) then (k, v) :: rest else (k', v') :: Map_set k v rest
  end.

(** [Map.prototype.delete]. *)
Definition Map_delete (k : WebSocket) (m : list (WebSocket * ref))
  : list (WebSocket * ref) :=
  filter (λ e, e.1 ≠ k) m.

(** The object at an address; addresses come from [handleSession] only, so
    none dangles. *)
Definition deref (w : World) (r : ref) : Session := heap w !!! r.

(** [session.quit = true]. *)
Definition mark_quit (r : ref) (w : World) : World :=
  set_heap (alter (λ s, mkSession (webSocket s) (username s) true) r (heap w)) w.

Inductive Completion := Fulfilled | Rejected.

Inductive Response :=
| Resp (status : nat) (body : option js_string) (webSocket : option WebSocket).

(** What [fetch] reads of a request: [headers.get('Upgrade')] and
    [searchParams.get('username')]. *)
Record Request := mkRequest {
  upgrade : option js_string;
  username_param : option js_string;
}.

Inductive Event :=
| Fetch (request : Request)
| OnMessage (ws : WebSocket) (data : MessageData)
| OnClose (ws : WebSocket)
| OnError (ws : WebSocket).

(** ** The platform

    What the room takes from its runtime: JSON, the clock and the transport. *)

Class Platform := {
  (** [JSON.parse]: [None] when it throws. *)
  JSON_parse : js_string → option JsValue;
  (** [JSON.stringify] on a server message. *)
  JSON_stringify : ServerMessage → js_string;
  (** [new Date().toISOString()] at the n-th reading of the clock. *)
  clock : nat → js_string;
  (** Whether [ws.send(payload)] throws, given everything the platform has
      observed so far. *)
  send_throws : list Effect → WebSocket → js_string → bool;
}.

(** ** The operations of [ChatRoom] *)

Section ChatRoom.

Context `{Platform}.

Definition toISOString_now (w : World) : js_string * World :=
  (clock (ticks w),
   mkWorld (sessions w) (heap w) (listeners w) (sockets w) (S (ticks w))
           (trace w)).

Definition stringify (message : ServerMessage) (w : World)
  : js_string * World :=
  (JSON_stringify message, log (Stringify message) w).

(** [ws.send(payload)]; the boolean tells whether it returned. *)
Definition send (ws : WebSocket) (payload : js_string) (w : World)
  : World * bool :=
  let ok := negb (send_throws (trace w) ws payload) in
  (log (Send ws payload ok) w, ok).

(** The callback of the first [forEach] of [broadcast]. *)
Definition deliver (messageStr : js_string) (r : ref) (w : World) : World :=
  let '(w1, ok) := send (webSocket (deref w r)) messageStr w in
  if ok then w1 else mark_quit r w1.

(** The first [forEach]: the callback never changes the map, so the entries
    visited are those present at the start. *)
Fixpoint fan_out (messageStr : js_string) (entries : list (WebSocket * ref))
    (w : World) : World :=
  match entries with
  | [] => w
  | (_, r) :: rest => fan_out messageStr rest (deliver messageStr r w)
  end.

(** The second [forEach]: deleting the entry being visited leaves the
    iteration over the others untouched. *)
Definition sweep (w : World) : World :=
  set_sessions (filter (λ e, quit (deref w e.2) = false) (sessions w)) w.

Definition broadcast (message : ServerMessage) (w : World) : World :=
  let '(messageStr, w1) := stringify message w in
  sweep (fan_out messageStr (sessions w1) w1).

(** [Array.from(this.sessions.values()).filter((s) => !s.quit)]. *)
Definition roster_entries (w : World) : list ref :=
  filter (λ r, quit (deref w r) = false) (sessions w).*2.

Definition roster (w : World) : list js_string :=
  (λ r, username (deref w r)) <$> roster_entries w.

Definition broadcastUserList (w : World) : World :=
  let users := roster w in
  broadcast (UserListMessage users) w.

(** The message listener: the [try] block; [false] when it throws. *)
Definition message_try (c : Closure) (data : MessageData) (w : World)
  : World * bool :=
  match data with
  | Binary => (w, true)
  | Text s =>
      match JSON_parse s with
      | None => (w, false)
      | Some data =>
          match get_property data (lit "type") with
          | None => (w, false)
          | Some type =>
              if strict_eq_string type (lit "message")
                 && truthy (default JUndefined (get_property data (lit "text")))
              then
                let user := username (deref w (c_session c)) in
                let text := default JUndefined (get_property data (lit "text")) in
                let '(timestamp, w1) := toISOString_now w in
                (broadcast (ChatMessage user text timestamp) w1, true)
              else if strict_eq_string type (lit "ping") then
                let '(timestamp, w1) := toISOString_now w in
                let id := default JUndefined (get_property data (lit "id")) in
                let '(serverTime, w2) := toISOString_now w1 in
                let '(payload, w3) :=
                  stringify (PongMessage timestamp id serverTime) w2 in
                send (c_webSocket c) payload w3
              else (w, true)
          end
      end
  end.

(** The message listener: an async function, so what its [catch] block
    throws rejects the promise it returns. *)
Definition on_message (c : Closure) (data : MessageData) (w : World)
  : World * Completion :=
  let '(w1, ok) := message_try c data w in
  if ok then (w1, Fulfilled)
  else
    let '(payload, w2) :=
      stringify (ErrorMessage (lit "Invalid message format")) w1 in
    let '(w3, sent) := send (c_webSocket c) payload w2 in
    (w3, if sent then Fulfilled else Rejected).

Definition on_close (c : Closure) (w : World) : World :=
  let w1 := mark_quit (c_session c) w in
  let w2 := set_sessions (Map_delete (c_webSocket c) (sessions w1)) w1 in
  let w3 := broadcastUserList w2 in
  let '(timestamp, w4) := toISOString_now w3 in
  broadcast
    (ChatMessage (lit "System")
       (JString (c_username c ++ lit " left the chat")) timestamp) w4.

Definition on_error (c : Closure) (w : World) : World :=
  let w1 := mark_quit (c_session c) w in
  let w2 := set_sessions (Map_delete (c_webSocket c) (sessions w1)) w1 in
  broadcastUserList w2.

Definition handleSession (webSocket : WebSocket) (username : js_string)
    (w : World) : World :=
  let w1 := log (Accept webSocket) w in
  let session := length (heap w1) in
  let w2 := set_heap (heap w1 ++ [mkSession webSocket username false]) w1 in
  let w3 := set_sessions (Map_set webSocket session (sessions w2)) w2 in
  let w4 := broadcastUserList w3 in
  let '(timestamp, w5) := toISOString_now w4 in
  let w6 :=
    broadcast
      (ChatMessage (lit "System")
         (JString (username ++ lit " joined the chat")) timestamp) w5 in
  add_listener (mkClosure webSocket session username) w6.

(** [new WebSocketPair()]: two fresh sockets, client first. *)
Definition WebSocketPair (w : World) : WebSocket * WebSocket * World :=
  (sockets w, S (sockets w),
   mkWorld (sessions w) (heap w) (listeners w) (S (S (sockets w))) (ticks w)
           (trace w)).

Definition fetch (request : Request) (w : World) : World * Response :=
  if bool_decide (upgrade request = Some (lit "websocket")) then
    match username_param request with
    | None => (w, Resp 400 (Some (lit "Username is required")) None)
    | Some username =>
        if bool_decide (username = []) || bool_decide (length (trim username) = 0)
        then (w, Resp 400 (Some (lit "Username is required")) None)
        else
          let '(client, server, w1) := WebSocketPair w in
          let w2 := handleSession server (trim username) w1 in
          (w2, Resp 101 None (Some client))
    end
  else (w, Resp 426 (Some (lit "Expected WebSocket")) None).

(** An event on a socket runs the listeners added for it, in order. *)
Fixpoint dispatch (handler : Closure → World → World) (ws : WebSocket)
    (cs : list Closure) (w : World) : World :=
  match cs with
  | [] => w
  | c :: rest =>
      dispatch handler ws rest
        (if decide (c_webSocket c = ws) then handler c w else w)
  end.

(** One event reaction of the room. *)
Definition react (e : Event) (w : World) : World :=
  match e with
  | Fetch request => (fetch request w).1
  | OnMessage ws data =>
      dispatch (λ c w, (on_message c data w).1) ws (listeners w) w
  | OnClose ws => dispatch on_close ws (listeners w) w
  | OnError ws => dispatch on_error ws (listeners w) w
  end.

Definition run (events : list Event) (w : World) : World :=
  foldl (λ w e, react e w) w events.

(** The states the room can be in between two reactions. *)
Definition reachable (w : World) : Prop :=
  ∃ events, w = run events init.

End ChatRoom.

(** ** Observations on worlds and traces *)

(** The messages serialized in a trace, in order. *)
Definition stringified (tr : list Effect) : list ServerMessage :=
  omap (λ e, match e with Stringify m => Some m | _ => None end) tr.

(** The calls of [send] in a trace, in order: socket and payload. *)
Definition sends (tr : list Effect) : list (WebSocket * js_string) :=
  omap (λ e, match e with Send ws p _ => Some (ws, p) | _ => None end) tr.

(** The sockets on which a [send] of the trace threw. *)
Definition failures (tr : list Effect) : list WebSocket :=
  omap (λ e, match e with Send ws _ false => Some ws | _ => None end) tr.

(** The lists of users of the [userList] messages serialized in a trace. *)
Definition rosters (tr : list Effect) : list (list js_string) :=
  omap (λ e, match e with
             | Stringify (UserListMessage users) => Some users
             | _ => None
             end) tr.

(** What a reaction from [w] to [w'] added to the trace. *)
Definition since (w w' : World) : list Effect :=
  drop (length (trace w)) (trace w').

(** The usernames of the sessions in the registry, in its order. *)
Definition registered_usernames (w : World) : list js_string :=
  (λ e, username (deref w e.2)) <$> sessions w.

(** All but the heap and the trace is as it was. *)
Definition same_room (w w' : World) : Prop :=
  sessions w' = sessions w ∧ listeners w' = listeners w ∧
  sockets w' = sockets w ∧ ticks w' = ticks w.

(** Every field of every object but [quit] is as it was, and [quit] is not
    reset. *)
Definition same_objects (w w' : World) : Prop :=
  length (heap w') = length (heap w) ∧
  ∀ r, webSocket (deref w' r) = webSocket (deref w r) ∧
       username (deref w' r) = username (deref w r) ∧
       (quit (deref w r) = true → quit (deref w' r) = true).

(** No address returns to the map: the sessions of [w'] are sessions of [w]
    or objects made since. *)
Definition no_return (w w' : World) : Prop :=
  length (heap w) ≤ length (heap w') ∧
  ∀ r, r ∈ (sessions w').*2 → r ∈ (sessions w).*2 ∨ length (heap w) ≤ r.

(** The invariant of the room between two reactions. *)
Record Inv (w : World) : Prop := {
  inv_keys : NoDup (sessions w).*1;
  inv_entry : ∀ ws r, (ws, r) ∈ sessions w →
    r < length (heap w) ∧ webSocket (deref w r) = ws ∧ quit (deref w r) = false;
  inv_sockets : ∀ r, r < length (heap w) → webSocket (deref w r) < sockets w;
  inv_closure : ∀ c, c ∈ listeners w →
    c_session c < length (heap w) ∧
    webSocket (deref w (c_session c)) = c_webSocket c ∧
    username (deref w (c_session c)) = c_username c;
  inv_listeners : NoDup (c_webSocket <$> listeners w);
  inv_trimmed : ∀ r, r < length (heap w) →
    ∃ raw, username (deref w r) = trim raw;
}.

(** The room once a close or error listener has marked and deleted its
    session. *)
Definition evicted (c : Closure) (w : World) : World :=
  set_sessions (Map_delete (c_webSocket c) (sessions w))
    (mark_quit (c_session c) w).

(** [data.type === 'message' && data.text] *)
Definition is_chat (data : JsValue) : bool :=
  match get_property data (lit "type") with
  | Some type =>
      strict_eq_string type (lit "message")
      && truthy (default JUndefined (get_property data (lit "text")))
  | None => false
  end.

(** [data.type === 'ping'] *)
Definition is_ping (data : JsValue) : bool :=
  match get_property data (lit "type") with
  | Some type => strict_eq_string type (lit "ping")
  | None => false
  end.

Section Deliveries.

Context `{Platform}.

(** The [send] events of a fan-out of [p] to [targets], after [history]. *)
Fixpoint deliveries (p : js_string) (targets : list WebSocket)
    (history : list Effect) : list Effect :=
  match targets with
  | [] => []
  | ws :: rest =>
      let e := Send ws p (negb (send_throws history ws p)) in
      e :: deliveries p rest (history ++ [e])
  end.

(** What [broadcast message] adds to the trace of [w]: one serialization,
    then a [send] per entry of the map. *)
Definition broadcast_events (message : ServerMessage) (w : World)
  : list Effect :=
  Stringify message
  :: deliveries (JSON_stringify message) (sessions w).*1
       (trace w ++ [Stringify message]).


End Deliveries.

(** ** What the listeners are expected to do *)

(** The reply of the [catch] block of the message listener. *)
Definition invalid_format : ServerMessage :=
  ErrorMessage (lit "Invalid message format").

Section Statements.

Context `{Platform}.

(** Handling [data] on the socket of [c] does one thing: it sends the error
    reply to that socket. *)
Definition error_reply_only (c : Closure) (data : MessageData) (w : World)
  : Prop :=
  let w' := (on_message c data w).1 in
  stringified (since w w') = [invalid_format] ∧
  sends (since w w') = [(c_webSocket c, JSON_stringify invalid_format)] ∧
  sessions w' = sessions w ∧ heap w' = heap w.

(** Handling [data] on the socket of [c] does nothing. *)
Definition ignored (c : Closure) (data : MessageData) (w : World) : Prop :=
  on_message c data w = (w, Fulfilled).

(** The usernames of the sessions of [w] but that of [c]. *)
Definition roster_without (c : Closure) (w : World) : list js_string :=
  (λ e, username (deref w e.2)) <$> Map_delete (c_webSocket c) (sessions w).

Definition departure_notice (c : Closure) (w : World) : ServerMessage :=
  ChatMessage (lit "System") (JString (c_username c ++ lit " left the chat"))
    (clock (ticks w)).

(** The session of [c] is not in the map of [w']. *)
Definition gone (c : Closure) (w' : World) : Prop :=
  (c_webSocket c ∉ (sessions w').*1) ∧ (c_session c ∉ (sessions w').*2).

(** From [w] to [w'] the session of [c] left the map, and the roster and
    then the departure notice were serialized. *)
Definition departure_announced (c : Closure) (w w' : World) : Prop :=
  gone c w' ∧
  stringified (since w w') =
  [UserListMessage (roster_without c w); departure_notice c w].

(** From [w] to [w'] the session of [c] left the map and the roster alone
    was serialized. *)
Definition departure_unannounced (c : Closure) (w w' : World) : Prop :=
  gone c w' ∧
  stringified (since w w') = [UserListMessage (roster_without c w)].

(** The [send]s of one broadcast of [message] when the map is that of [w]. *)
Definition to_all (message : ServerMessage) (w : World)
  : list (WebSocket * js_string) :=
  (λ e, (e.1, JSON_stringify message)) <$> sessions w.

End Statements.

(** ** Further observations *)

(** [s] begins with a code unit that [trim] strips. *)
Definition starts_with_space (s : js_string) : bool :=
  match s with
  | c :: _ => is_white_space c
  | [] => false
  end.

(** [s] is made of code units that [trim] strips, and of nothing else. *)
Definition blank (s : js_string) : Prop :=
  Forall (λ c, is_white_space c = true) s.

(** The objects of [w] are objects of [w'], with the [webSocket] and the
    [username] they had, and still marked if they were. *)
Definition kept (w w' : World) : Prop :=
  length (heap w) ≤ length (heap w') ∧
  ∀ r, r < length (heap w) →
    webSocket (deref w' r) = webSocket (deref w r) ∧
    username (deref w' r) = username (deref w r) ∧
    (quit (deref w r) = true → quit (deref w' r) = true).

(** Every session in the map has the listeners [handleSession] added for
    it. *)
Definition covered (w : World) : Prop :=
  ∀ ws r, (ws, r) ∈ sessions w →
    ∃ c, c ∈ listeners w ∧ c_webSocket c = ws ∧ c_session c = r.

(** The room once [handleSession] has made its session and put it in the
    map. *)
Definition joined (ws : WebSocket) (name : js_string) (w : World) : World :=
  set_sessions (Map_set ws (length (heap w)) (sessions w))
    (set_heap (heap w ++ [mkSession ws name false]) (log (Accept ws) w)).

Definition status (response : Response) : nat :=
  match response with
  | Resp status _ _ => status
  end.

(** ** The worker entry (server-entry.ts) *)

(** What the entry reads of a request: [url.pathname], and what it hands on
    to the room. *)
Record Incoming := mkIncoming {
  pathname : js_string;
  request : Request;
}.

(** What the entry answers: a response, its own or the room's, or whatever
    the server entry of the framework makes of the request. *)
Inductive Answer :=
| Responded (response : Response)
| StartServerEntry.

Module ServerEntry.
Section Entry.

Context `{Platform}.

(** The [fetch] of the default export.  [idFromName('global-chat')] names
    one room, whatever the request. *)
Definition fetch (incoming : Incoming) (w : World) : World * Answer :=
  if bool_decide (pathname incoming = lit "/api/ws") then
    if bool_decide (upgrade (request incoming) = Some (lit "websocket")) then
      match username_param (request incoming) with
      | None =>
          (w, Responded (Resp 400 (Some (lit "Username is required")) None))
      | Some username =>
          if bool_decide (username = [])
          then (w, Responded
                     (Resp 400 (Some (lit "Username is required")) None))
          else
            let '(w1, response) := fetch (request incoming) w in
            (w1, Responded response)
      end
    else (w, StartServerEntry)
  else (w, StartServerEntry).

End Entry.
End ServerEntry.

(** ** A concrete platform for the examples *)

(** A JSON text, written with ['] for the double quote. *)
Definition json (s : string) : js_string :=
  List.map (λ c, if (c =? 39)%N then 34%N else c) (lit s).

Definition chat_hi : JsValue :=
  JObject [(lit "type", JString (lit "message")); (lit "text", JString (lit "hi"))].

Definition ping_abc : JsValue :=
  JObject [(lit "type", JString (lit "ping")); (lit "id", JString (lit "abc"))].

Definition typing : JsValue :=
  JObject [(lit "type", JString (lit "typing"))].

(** [JSON.parse] on the texts the examples send; on every other text this
    one throws. *)
Definition sample_parse (s : js_string) : option JsValue :=
  if bool_decide (s = json "{'type':'message','text':'hi'}") then Some chat_hi
  else if bool_decide (s = json "{'type':'ping','id':'abc'}") then Some ping_abc
  else if bool_decide (s = json "{'type':'typing'}") then Some typing
  else if bool_decide (s = json "null") then Some JNull
  else None.

Definition quoted (s : js_string) : js_string := 34%N :: s ++ [34%N].

Definition show_value (v : JsValue) : js_string :=
  match v with
  | JString s => quoted s
  | JBool true => lit "true"
  | JBool false => lit "false"
  | _ => lit "null"
  end.

Definition show_users (users : list js_string) : js_string :=
  match users with
  | [] => []
  | u :: rest => quoted u ++ concat ((λ v, 44%N :: quoted v) <$> rest)
  end.

(** [JSON.stringify] on the messages the examples produce: those whose
    strings need no escape and whose [text] and [id] are strings. *)
Definition sample_stringify (m : ServerMessage) : js_string :=
  match m with
  | ChatMessage u t ts =>
      json "{'type':'message','username':" ++ quoted u ++ json ",'text':"
        ++ show_value t ++ json ",'timestamp':" ++ quoted ts ++ lit "}"
  | UserListMessage users =>
      json "{'type':'userList','users':[" ++ show_users users ++ lit "]}"
  | ErrorMessage msg =>
      json "{'type':'error','message':" ++ quoted msg ++ lit "}"
  | PongMessage ts id st =>
      json "{'type':'pong','timestamp':" ++ quoted ts ++ json ",'id':"
        ++ show_value id ++ json ",'serverTime':" ++ quoted st ++ lit "}"
  end.

(** A clock that advances one millisecond per reading. *)
Definition sample_clock (n : nat) : js_string :=
  let d k := (48 + N.of_nat (n / k) mod 10)%N in
  lit "2024-01-01T00:00:00." ++ [d 100; d 10; d 1] ++ lit "Z".

(** The platform in which [send] throws on the sockets of [dead] and on no
    other. *)
Definition sample (dead : list WebSocket) : Platform := {|
  JSON_parse := sample_parse;
  JSON_stringify := sample_stringify;
  clock := sample_clock;
  send_throws := λ _ ws _, bool_decide (ws ∈ dead);
|}.

Definition request_of (name : string) : Request :=
  mkRequest (Some (lit "websocket")) (Some (lit name)).

(** alice then bob connect; their server sockets are 1 and 3. *)
Definition alice_and_bob : list Event :=
  [Fetch (request_of "  alice "); Fetch (request_of "bob")].

(** The room after [alice_and_bob], when no [send] throws. *)
Definition two_users : World := run (H := sample []) alice_and_bob init.

(** The closures of the listeners of alice and of bob. *)
Definition alice : Closure := mkClosure 1 0 (lit "alice").
Definition bob : Closure := mkClosure 3 1 (lit "bob").

(** carol asks to join, with blanks around her name. *)
Definition carol_request : Request := request_of " carol ".

(** The room after [alice_and_bob] and an error on alice's socket. *)
Definition bob_alone : World :=
  run (H := sample []) (alice_and_bob ++ [OnError 1]) init.

(** ** Properties *)

Section Properties.

Context `{Platform}.

(** *** Traces *)

Lemma since_app w w' d : trace w' = trace w ++ d → since w w' = d.
Proof. unfold since. intros ->. by rewrite drop_app_length. Qed.


Lemma stringified_app t1 t2 :
  stringified (t1 ++ t2) = stringified t1 ++ stringified t2.
Proof. apply omap_app. Qed.

Lemma sends_app t1 t2 : sends (t1 ++ t2) = sends t1 ++ sends t2.
Proof. apply omap_app. Qed.


Lemma failures_app t1 t2 : failures (t1 ++ t2) = failures t1 ++ failures t2.
Proof. apply omap_app. Qed.

Lemma elem_of_failures ws tr : ws ∈ failures tr ↔ ∃ p, Send ws p false ∈ tr.
Proof.
  unfold failures. rewrite list_elem_of_omap. split.
  - intros ([| |ws' p [|]] & Hin & Heq); simplify_eq. eauto.
  - intros [p Hin]. by exists (Send ws p false).
Qed.

Lemma deliveries_stringified p ts h : stringified (deliveries p ts h) = [].
Proof. revert h. induction ts as [|ws ts IH]; intros h; simpl; auto. Qed.


Lemma deliveries_sends p ts h :
  sends (deliveries p ts h) = (λ ws, (ws, p)) <$> ts.
Proof.
  revert h. induction ts as [|ws ts IH]; intros h; simpl; [done|].
  by rewrite IH.
Qed.

Lemma deliveries_length p ts h : length (deliveries p ts h) = length ts.
Proof.
  revert h. induction ts as [|ws ts IH]; intros h; simpl; [done|].
  by rewrite IH.
Qed.

Lemma deliveries_target p ts h e :
  e ∈ deliveries p ts h → ∃ ws ok, e = Send ws p ok ∧ ws ∈ ts.
Proof.
  revert h. induction ts as [|ws ts IH]; intros h; simpl.
  - by intros ?%elem_of_nil.
  - intros [->|Hin]%elem_of_cons.
    + eexists _, _. split; [done|]. left.
    + destruct (IH _ Hin) as (ws' & ok & -> & ?).
      eexists _, _. split; [done|]. by right.
Qed.

(** With no failure every delivery is a successful [send]. *)
Lemma deliveries_no_failure p ts h :
  failures (deliveries p ts h) = [] →
  deliveries p ts h = (λ ws, Send ws p true) <$> ts.
Proof.
  revert h. induction ts as [|ws ts IH]; intros h; simpl; [done|].
  destruct (send_throws h ws p); simpl; [done|].
  intros Hf. by rewrite (IH _ Hf).
Qed.

(** *** [mark_quit] *)

Lemma deref_mark_quit r w r' :
  deref (mark_quit r w) r' =
  if decide (r = r' ∧ r < length (heap w))
  then mkSession (webSocket (deref w r)) (username (deref w r)) true
  else deref w r'.
Proof.
  unfold deref, mark_quit. simpl. rewrite list_lookup_total_alter.
  repeat match goal with
         | |- context [@decide ?P ?d] => destruct (@decide P d)
         end; done.
Qed.

Lemma mark_quit_length r w : length (heap (mark_quit r w)) = length (heap w).
Proof. unfold mark_quit. simpl. apply length_alter. Qed.

Lemma mark_quit_fields r w r' :
  webSocket (deref (mark_quit r w) r') = webSocket (deref w r') ∧
  username (deref (mark_quit r w) r') = username (deref w r') ∧
  (quit (deref w r') = true → quit (deref (mark_quit r w) r') = true).
Proof.
  rewrite deref_mark_quit. destruct (decide _) as [[-> _]|]; done.
Qed.

Lemma mark_quit_other r w r' :
  r ≠ r' → deref (mark_quit r w) r' = deref w r'.
Proof.
  intros ?. rewrite deref_mark_quit. by destruct (decide _) as [[? _]|].
Qed.

Lemma mark_quit_self r w :
  r < length (heap w) → quit (deref (mark_quit r w) r) = true.
Proof.
  intros ?. rewrite deref_mark_quit. destruct (decide _) as [|Hn]; [done|].
  destruct Hn. done.
Qed.

(** *** [same_objects] *)

Lemma same_objects_refl w : same_objects w w.
Proof. by split. Qed.

Lemma same_objects_trans w1 w2 w3 :
  same_objects w1 w2 → same_objects w2 w3 → same_objects w1 w3.
Proof.
  intros [Hl1 H1] [Hl2 H2]. split; [congruence|]. intros r.
  destruct (H1 r) as (E1 & E2 & ?), (H2 r) as (E3 & E4 & ?).
  rewrite E3, E4, E1, E2. auto.
Qed.

Lemma same_objects_heap w w' : heap w' = heap w → same_objects w w'.
Proof. intros Hh. unfold same_objects, deref. by rewrite Hh. Qed.

Lemma same_objects_mark_quit r w : same_objects w (mark_quit r w).
Proof. split; [apply mark_quit_length|]. intros r'. apply mark_quit_fields. Qed.

Lemma same_room_refl w : same_room w w.
Proof. by repeat split. Qed.

Lemma same_room_trans w1 w2 w3 :
  same_room w1 w2 → same_room w2 w3 → same_room w1 w3.
Proof.
  intros (?&?&?&?) (?&?&?&?). repeat split; congruence.
Qed.

(** *** The fan-out of [broadcast] *)

Lemma deliver_unfold p r w :
  let ws := webSocket (deref w r) in
  let e := Send ws p (negb (send_throws (trace w) ws p)) in
  deliver p r w =
  if send_throws (trace w) ws p then mark_quit r (log e w) else log e w.
Proof. unfold deliver, send. simpl. by destruct (send_throws _ _ _). Qed.

Lemma deliver_same_room p r w : same_room w (deliver p r w).
Proof.
  rewrite deliver_unfold. simpl. by destruct (send_throws _ _ _).
Qed.

Lemma deliver_same_objects p r w : same_objects w (deliver p r w).
Proof.
  rewrite deliver_unfold. simpl. destruct (send_throws _ _ _).
  - eapply same_objects_trans; [|apply same_objects_mark_quit].
    by apply same_objects_heap.
  - by apply same_objects_heap.
Qed.

Lemma deliver_trace p r w :
  trace (deliver p r w) =
  trace w ++ [Send (webSocket (deref w r)) p
                (negb (send_throws (trace w) (webSocket (deref w r)) p))].
Proof. rewrite deliver_unfold. simpl. by destruct (send_throws _ _ _). Qed.

Lemma fan_out_same_room p entries w : same_room w (fan_out p entries w).
Proof.
  revert w. induction entries as [|[ws r] entries IH]; intros w; simpl.
  - apply same_room_refl.
  - eapply same_room_trans; [apply deliver_same_room|apply IH].
Qed.

Lemma fan_out_same_objects p entries w : same_objects w (fan_out p entries w).
Proof.
  revert w. induction entries as [|[ws r] entries IH]; intros w; simpl.
  - apply same_objects_refl.
  - eapply same_objects_trans; [apply deliver_same_objects|apply IH].
Qed.

(** The fan-out calls [send] on the socket of each session of the map, in
    the order of the map. *)
Lemma fan_out_trace_sockets p entries w :
  trace (fan_out p entries w) =
  trace w
  ++ deliveries p ((λ e, webSocket (deref w e.2)) <$> entries) (trace w).
Proof.
  revert w. induction entries as [|[ws r] entries IH]; intros w; simpl.
  - by rewrite app_nil_r.
  - rewrite IH, deliver_trace, <- app_assoc. simpl. do 3 f_equal.
    apply list_fmap_ext. intros _ e _.
    by destruct (deliver_same_objects p r w) as [_ Hf], (Hf e.2) as (-> & _).
Qed.

(** The fan-out sends to the socket of each entry, in the order of the
    map. *)
Lemma fan_out_trace p entries w :
  (∀ e, e ∈ entries → webSocket (deref w e.2) = e.1) →
  trace (fan_out p entries w) =
  trace w ++ deliveries p entries.*1 (trace w).
Proof.
  revert w. induction entries as [|[ws r] entries IH]; intros w Hws; simpl.
  - by rewrite app_nil_r.
  - rewrite IH.
    + pose proof (Hws (ws, r) ltac:(left)) as Hw. simpl in Hw.
      rewrite deliver_trace, Hw. by rewrite <- app_assoc.
    + intros e He. destruct (deliver_same_objects p r w) as [_ Hf].
      destruct (Hf e.2) as (-> & _). apply Hws. by right.
Qed.

(** A session whose [send] threw is marked. *)
Lemma fan_out_marks p entries w ws r :
  (∀ e, e ∈ entries → e.2 < length (heap w) ∧ webSocket (deref w e.2) = e.1) →
  NoDup entries.*1 →
  (ws, r) ∈ entries →
  Send ws p false ∈ deliveries p entries.*1 (trace w) →
  quit (deref (fan_out p entries w) r) = true.
Proof.
  revert w. induction entries as [|[ws0 r0] entries IH];
    intros w Hws Hnd Hin Hsend; simpl in *.
  - by apply elem_of_nil in Hin.
  - apply list.NoDup_cons in Hnd as [Hnotin Hnd].
    destruct (Hws (ws0, r0)) as [Hr0 Hws0]; [left|]. simpl in *.
    assert (∀ e, e ∈ entries →
              e.2 < length (heap (deliver p r0 w)) ∧
              webSocket (deref (deliver p r0 w) e.2) = e.1) as Hws'.
    { intros e He. destruct (deliver_same_objects p r0 w) as [-> Hf].
      destruct (Hf e.2) as (-> & _). apply Hws. by right. }
    apply elem_of_cons in Hsend as [Heq|Hsend].
    + injection Heq as -> Hok.
      apply elem_of_cons in Hin as [Heq|Hin].
      * injection Heq as ->.
        apply (fan_out_same_objects p entries). rewrite deliver_unfold.
        simpl. rewrite Hws0.
        destruct (send_throws _ _ _); [|done].
        by apply mark_quit_self.
      * destruct Hnotin. by apply (list_elem_of_fmap_2 fst) in Hin.
    + apply elem_of_cons in Hin as [Heq|Hin].
      * injection Heq as -> ->.
        apply deliveries_target in Hsend as (? & ? & Heq & Hin').
        injection Heq as <- _. by destruct Hnotin.
      * apply IH; [done..|]. by rewrite deliver_trace, Hws0.
Qed.

(** A [send] that throws is the only thing that marks a session during the
    fan-out. *)
Lemma fan_out_marked p entries w r :
  (∀ e, e ∈ entries → webSocket (deref w e.2) = e.1) →
  quit (deref (fan_out p entries w) r) = true →
  quit (deref w r) = true ∨
  ∃ ws, (ws, r) ∈ entries ∧
        Send ws p false ∈ deliveries p entries.*1 (trace w).
Proof.
  revert w. induction entries as [|[ws0 r0] entries IH];
    intros w Hws Hq; simpl in *; [by left|].
  pose proof (Hws (ws0, r0) ltac:(left)) as Hws0. simpl in Hws0.
  destruct (IH (deliver p r0 w)) as [Hq'|(ws & Hin & Hsend)]; [|done|..].
  - intros e He. destruct (deliver_same_objects p r0 w) as [_ Hf].
    destruct (Hf e.2) as (-> & _). apply Hws. by right.
  - rewrite deliver_unfold in Hq'. simpl in Hq'. rewrite Hws0 in Hq'.
    destruct (send_throws (trace w) ws0 p) eqn:Hthrow; [|by left].
    rewrite deref_mark_quit in Hq'.
    destruct (decide _) as [[-> _]|]; [|by left].
    right. exists ws0. split; left.
  - right. exists ws. split; [by right|].
    rewrite deliver_trace, Hws0 in Hsend. by right.
Qed.

(** *** The map *)

Lemma keys_functional (m : list (WebSocket * ref)) k v1 v2 :
  NoDup m.*1 → (k, v1) ∈ m → (k, v2) ∈ m → v1 = v2.
Proof.
  induction m as [|[k' v'] m IH]; simpl; [by intros _ ?%elem_of_nil|].
  intros [Hnotin Hnd]%list.NoDup_cons [E1|H1]%elem_of_cons [E2|H2]%elem_of_cons.
  - congruence.
  - injection E1 as -> ->. destruct Hnotin.
    by apply (list_elem_of_fmap_2 fst) in H2.
  - injection E2 as -> ->. destruct Hnotin.
    by apply (list_elem_of_fmap_2 fst) in H1.
  - by apply IH.
Qed.

Lemma filter_all {A} (P : A → Prop) `{∀ x, Decision (P x)} (l : list A) :
  (∀ x, x ∈ l → P x) → filter P l = l.
Proof.
  induction l as [|x l IH]; intros Hall; [done|].
  rewrite filter_cons_True by (apply Hall; left).
  f_equal. apply IH. intros y Hy. apply Hall. by right.
Qed.

Lemma Map_delete_keys k m : k ∉ (Map_delete k m).*1.
Proof.
  intros ([k' v] & Heq & [Hne _]%list_elem_of_filter)%list_elem_of_fmap.
  simpl in *. congruence.
Qed.

Lemma Map_set_fresh k v m : k ∉ m.*1 → Map_set k v m = m ++ [(k, v)].
Proof.
  induction m as [|[k' v'] m IH]; simpl; [done|].
  intros [Hne Hnotin]%not_elem_of_cons.
  destruct (decide (k' = k)); [congruence|]. by rewrite IH.
Qed.

(** *** [broadcast] *)

Lemma broadcast_unfold m w :
  broadcast m w =
  sweep (fan_out (JSON_stringify m) (sessions w) (log (Stringify m) w)).
Proof. reflexivity. Qed.

Lemma broadcast_same_objects m w : same_objects w (broadcast m w).
Proof.
  rewrite broadcast_unfold.
  eapply same_objects_trans; [|by apply same_objects_heap].
  eapply same_objects_trans; [|apply fan_out_same_objects].
  by apply same_objects_heap.
Qed.

Lemma broadcast_frame m w :
  listeners (broadcast m w) = listeners w ∧
  sockets (broadcast m w) = sockets w ∧
  ticks (broadcast m w) = ticks w.
Proof.
  rewrite broadcast_unfold. unfold sweep. simpl.
  destruct (fan_out_same_room (JSON_stringify m) (sessions w)
              (log (Stringify m) w)) as (_ & -> & -> & ->).
  done.
Qed.

(** The sweep keeps the entries whose session is not marked. *)
Lemma broadcast_sessions m w :
  sessions (broadcast m w) =
  filter (λ e, quit (deref (broadcast m w) e.2) = false) (sessions w).
Proof.
  rewrite broadcast_unfold. unfold sweep at 1. simpl.
  destruct (fan_out_same_room (JSON_stringify m) (sessions w)
              (log (Stringify m) w)) as (-> & _).
  done.
Qed.

Lemma broadcast_sublist m w :
  sublist (sessions (broadcast m w)) (sessions w).
Proof. rewrite broadcast_sessions. apply sublist_filter. Qed.

Lemma broadcast_trace m w :
  (∀ e, e ∈ sessions w → webSocket (deref w e.2) = e.1) →
  trace (broadcast m w) = trace w ++ broadcast_events m w.
Proof.
  intros Hws. rewrite broadcast_unfold. unfold sweep. simpl.
  rewrite fan_out_trace by done. simpl. by rewrite <- app_assoc.
Qed.

Lemma broadcast_trace_sockets m w :
  trace (broadcast m w) =
  trace w
  ++ Stringify m
     :: deliveries (JSON_stringify m)
          ((λ e, webSocket (deref w e.2)) <$> sessions w)
          (trace w ++ [Stringify m]).
Proof.
  rewrite broadcast_unfold. unfold sweep. simpl.
  rewrite fan_out_trace_sockets. simpl. by rewrite <- app_assoc.
Qed.

Lemma broadcast_since m w :
  Inv w → since w (broadcast m w) = broadcast_events m w.
Proof.
  intros HI. apply since_app, broadcast_trace.
  intros [ws r] Hin. by apply (inv_entry w HI).
Qed.

Lemma broadcast_events_stringified m w :
  stringified (broadcast_events m w) = [m].
Proof. unfold broadcast_events. simpl. by rewrite deliveries_stringified. Qed.

Lemma broadcast_events_sends m w :
  sends (broadcast_events m w) =
  (λ ws, (ws, JSON_stringify m)) <$> (sessions w).*1.
Proof. unfold broadcast_events. simpl. apply deliveries_sends. Qed.

(** A session whose [send] threw is gone when [broadcast] returns. *)
Lemma broadcast_evicts m w ws r :
  Inv w → (ws, r) ∈ sessions w → ws ∈ failures (broadcast_events m w) →
  (ws ∉ (sessions (broadcast m w)).*1) ∧ (r ∉ (sessions (broadcast m w)).*2).
Proof.
  intros HI Hin [p Hsend]%elem_of_failures.
  apply elem_of_cons in Hsend as [?|Hsend]; [done|].
  pose proof Hsend as (? & ? & Heq & _)%deliveries_target.
  injection Heq as _ ->.
  assert (quit (deref (broadcast m w) r) = true) as Hq.
  { rewrite broadcast_unfold. unfold sweep, deref. simpl.
    apply (fan_out_marks _ _ _ ws); [|apply HI|done..].
    intros [ws' r'] Hin'. simpl.
    by destruct (inv_entry w HI ws' r' Hin') as (? & ? & _). }
  split.
  - intros ([ws' r'] & Heq & Hin')%list_elem_of_fmap. simpl in Heq. subst ws'.
    rewrite broadcast_sessions in Hin'.
    apply list_elem_of_filter in Hin' as [Hq' Hin']. simpl in Hq'.
    assert (r' = r) as -> by (eapply keys_functional; [apply HI|done..]).
    congruence.
  - intros ([ws' r'] & Heq & Hin')%list_elem_of_fmap. simpl in Heq. subst r'.
    rewrite broadcast_sessions in Hin'.
    apply list_elem_of_filter in Hin' as [Hq' Hin']. simpl in Hq'.
    congruence.
Qed.

(** When no [send] throws, [broadcast] evicts nobody. *)
Lemma broadcast_keeps m w :
  Inv w → failures (broadcast_events m w) = [] →
  sessions (broadcast m w) = sessions w.
Proof.
  intros HI Hnone. rewrite broadcast_sessions. apply filter_all.
  intros [ws r] Hin. simpl. apply not_true_is_false. intros Hq.
  rewrite broadcast_unfold in Hq. unfold sweep, deref in Hq. simpl in Hq.
  apply fan_out_marked in Hq as [Hq|(ws' & _ & Hsend)].
  - destruct (inv_entry w HI ws r Hin) as (_ & _ & Hq').
    unfold deref in *. simpl in *. congruence.
  - assert (ws' ∈ failures (broadcast_events m w)) as Hf.
    { apply elem_of_failures. eexists. right. exact Hsend. }
    rewrite Hnone in Hf. by apply elem_of_nil in Hf.
  - intros [ws' r'] Hin'. by apply (inv_entry w HI).
Qed.

Lemma Inv_broadcast m w : Inv w → Inv (broadcast m w).
Proof.
  intros HI.
  destruct (broadcast_same_objects m w) as [Hlen Hobj].
  destruct (broadcast_frame m w) as (Hl & Hs & _).
  split.
  - eapply sublist_NoDup; [apply HI|]. apply fmap_sublist, broadcast_sublist.
  - intros ws r Hin. rewrite broadcast_sessions in Hin.
    apply list_elem_of_filter in Hin as [Hq Hin]. simpl in Hq.
    destruct (inv_entry w HI ws r Hin) as (? & ? & _).
    destruct (Hobj r) as (-> & _). rewrite Hlen. done.
  - intros r Hr. rewrite Hlen in Hr. destruct (Hobj r) as (-> & _).
    rewrite Hs. by apply HI.
  - intros c Hc. rewrite Hl in Hc.
    destruct (inv_closure w HI c Hc) as (? & ? & ?).
    destruct (Hobj (c_session c)) as (-> & -> & _). by rewrite Hlen.
  - rewrite Hl. apply HI.
  - intros r Hr. rewrite Hlen in Hr. destruct (Hobj r) as (_ & -> & _).
    by apply HI.
Qed.

(** *** The invariant along a reaction *)

#[local] Arguments broadcast : simpl never.
#[local] Arguments broadcastUserList : simpl never.
#[local] Arguments handleSession : simpl never.
#[local] Arguments on_close : simpl never.
#[local] Arguments on_error : simpl never.
#[local] Arguments on_message : simpl never.
#[local] Arguments message_try : simpl never.

Lemma Inv_ext w w' :
  sessions w' = sessions w → heap w' = heap w →
  listeners w' = listeners w → sockets w' = sockets w →
  Inv w → Inv w'.
Proof.
  intros Hs Hh Hl Hk [I1 I2 I3 I4 I5 I6].
  split; unfold deref in *; rewrite ?Hs, ?Hh, ?Hl, ?Hk; done.
Qed.

Lemma Inv_init : Inv init.
Proof.
  split; simpl; try by intros; exfalso; eapply not_elem_of_nil.
  - constructor.
  - intros r Hr. lia.
  - constructor.
  - intros r Hr. lia.
Qed.

Lemma broadcastUserList_unfold w :
  broadcastUserList w = broadcast (UserListMessage (roster w)) w.
Proof. reflexivity. Qed.

Lemma Inv_broadcastUserList w : Inv w → Inv (broadcastUserList w).
Proof. apply Inv_broadcast. Qed.

(** The state of the close and error listeners once they have marked and
    deleted their session. *)
Lemma Inv_evicted c w : Inv w → c ∈ listeners w → Inv (evicted c w).
Proof.
  unfold evicted.
  intros HI Hc.
  destruct (inv_closure w HI c Hc) as (Hr & Hws & Hname).
  destruct (same_objects_mark_quit (c_session c) w) as [Hlen Hobj].
  split; simpl.
  - eapply sublist_NoDup; [apply HI|]. apply fmap_sublist, sublist_filter.
  - intros ws r [Hne Hin]%list_elem_of_filter. simpl in Hne.
    destruct (inv_entry w HI ws r Hin) as (? & ? & ?).
    assert (c_session c ≠ r) as Hr' by (intros Heq; subst r; congruence).
    unfold deref in *. simpl.
    rewrite length_alter, list_lookup_total_alter_ne by done. done.
  - intros r Hr'. rewrite length_alter in Hr'.
    destruct (Hobj r) as (Hw & _). unfold deref in *. simpl in *.
    rewrite Hw. by apply HI.
  - intros c' Hc'. destruct (inv_closure w HI c' Hc') as (? & ? & ?).
    destruct (Hobj (c_session c')) as (Hw & Hu & _).
    unfold deref in *. simpl in *. rewrite length_alter, Hw, Hu. done.
  - apply HI.
  - intros r Hr'. rewrite length_alter in Hr'.
    destruct (Hobj r) as (_ & Hu & _). unfold deref in *. simpl in *.
    rewrite Hu. by apply HI.
Qed.

Lemma on_close_unfold c w :
  on_close c w =
  let w3 := broadcastUserList (evicted c w) in
  broadcast
    (ChatMessage (lit "System")
       (JString (c_username c ++ lit " left the chat")) (clock (ticks w3)))
    (toISOString_now w3).2.
Proof. reflexivity. Qed.

Lemma on_error_unfold c w :
  on_error c w = broadcastUserList (evicted c w).
Proof. reflexivity. Qed.

Lemma Inv_tick w : Inv w → Inv (toISOString_now w).2.
Proof. by apply Inv_ext. Qed.

Lemma Inv_on_close c w : Inv w → c ∈ listeners w → Inv (on_close c w).
Proof.
  intros HI Hc. rewrite on_close_unfold. cbv zeta.
  apply Inv_broadcast, Inv_tick, Inv_broadcastUserList, Inv_evicted; done.
Qed.

Lemma Inv_on_error c w : Inv w → c ∈ listeners w → Inv (on_error c w).
Proof.
  intros HI Hc. rewrite on_error_unfold.
  apply Inv_broadcastUserList, Inv_evicted; done.
Qed.

Lemma Inv_log e w : Inv w → Inv (log e w).
Proof. by apply Inv_ext. Qed.

Lemma Inv_send ws p w : Inv w → Inv (send ws p w).1.
Proof. apply Inv_log. Qed.

Lemma Inv_message_try c data w : Inv w → Inv (message_try c data w).1.
Proof.
  intros HI. unfold message_try.
  destruct data as [s|]; [|done].
  destruct (JSON_parse s) as [v|]; [|done].
  destruct (get_property v (lit "type")) as [type|]; [|done].
  destruct (_ && _).
  { by apply Inv_broadcast, Inv_tick. }
  destruct (strict_eq_string type (lit "ping")); [|done].
  by apply Inv_log, Inv_log, Inv_tick, Inv_tick.
Qed.

Lemma on_message_unfold c data w :
  on_message c data w =
  let w1 := (message_try c data w).1 in
  if (message_try c data w).2 then (w1, Fulfilled)
  else
    let w2 := log (Stringify (ErrorMessage (lit "Invalid message format"))) w1 in
    let payload := JSON_stringify (ErrorMessage (lit "Invalid message format")) in
    let ok := negb (send_throws (trace w2) (c_webSocket c) payload) in
    (log (Send (c_webSocket c) payload ok) w2,
     if ok then Fulfilled else Rejected).
Proof.
  unfold on_message. destruct (message_try c data w) as [w1 [|]]; done.
Qed.

Lemma Inv_on_message c data w : Inv w → Inv (on_message c data w).1.
Proof.
  intros HI. rewrite on_message_unfold. simpl.
  pose proof (Inv_message_try c data w HI).
  destruct (message_try c data w).2; simpl; [done|].
  by apply Inv_log, Inv_log.
Qed.

Lemma Inv_add_listener c w :
  Inv w → c_session c < length (heap w) →
  webSocket (deref w (c_session c)) = c_webSocket c →
  username (deref w (c_session c)) = c_username c →
  c_webSocket c ∉ c_webSocket <$> listeners w →
  Inv (add_listener c w).
Proof.
  intros [I1 I2 I3 I4 I5 I6] Hr Hws Hname Hfresh. split; simpl; try done.
  - intros c' [Hc'| ->%list_elem_of_singleton]%elem_of_app; auto.
  - rewrite fmap_app. apply list.NoDup_app. split; [done|]. split.
    + intros ws Hin ->%list_elem_of_singleton. done.
    + apply NoDup_singleton.
Qed.

(** The state of [handleSession] once the session is in the map. *)
Lemma Inv_registered ws name w :
  Inv w → (∀ r, r < length (heap w) → webSocket (deref w r) ≠ ws) →
  ws < sockets w → (∃ raw, name = trim raw) →
  let w3 := set_sessions (sessions w ++ [(ws, length (heap w))])
              (set_heap (heap w ++ [mkSession ws name false])
                 (log (Accept ws) w)) in
  Inv w3 ∧
  set_sessions (Map_set ws (length (heap w)) (sessions w))
    (set_heap (heap w ++ [mkSession ws name false]) (log (Accept ws) w))
  = w3.
Proof.
  intros HI Hfresh Hlt Hraw w3.
  assert (ws ∉ (sessions w).*1) as Hkey.
  { intros ([ws' r] & Heq & Hin)%list_elem_of_fmap. simpl in Heq. subst ws'.
    destruct (inv_entry w HI ws r Hin) as (Hr & Hw & _).
    by apply (Hfresh r). }
  split; [|by rewrite Map_set_fresh].
  split; unfold w3, deref; simpl.
  - rewrite fmap_app. apply list.NoDup_app. split; [apply HI|]. split.
    + intros k Hin ->%list_elem_of_singleton. done.
    + apply NoDup_singleton.
  - intros ws' r [Hin|Heq%list_elem_of_singleton]%elem_of_app.
    + destruct (inv_entry w HI ws' r Hin) as (? & ? & ?).
      rewrite length_app, lookup_total_app_l by done. simpl.
      split; [lia|done].
    + injection Heq as -> ->.
      rewrite length_app, list_lookup_total_middle by done. simpl.
      split; [lia|done].
  - intros r. rewrite length_app. simpl. intros Hr.
    destruct (decide (r = length (heap w))) as [->|].
    + by rewrite list_lookup_total_middle.
    + rewrite lookup_total_app_l by lia. apply HI. lia.
  - intros c Hc. destruct (inv_closure w HI c Hc) as (? & ? & ?).
    rewrite length_app, lookup_total_app_l by done. simpl.
    split; [lia|done].
  - apply HI.
  - intros r. rewrite length_app. simpl. intros Hr.
    destruct (decide (r = length (heap w))) as [->|].
    + by rewrite list_lookup_total_middle.
    + rewrite lookup_total_app_l by lia. apply HI. lia.
Qed.

Lemma handleSession_unfold ws name w :
  handleSession ws name w =
  let w3 := set_sessions (Map_set ws (length (heap w)) (sessions w))
              (set_heap (heap w ++ [mkSession ws name false])
                 (log (Accept ws) w)) in
  let w4 := broadcastUserList w3 in
  let w6 :=
    broadcast
      (ChatMessage (lit "System")
         (JString (name ++ lit " joined the chat")) (clock (ticks w4)))
      (toISOString_now w4).2 in
  add_listener (mkClosure ws (length (heap w)) name) w6.
Proof. reflexivity. Qed.

Lemma Inv_handleSession ws name w :
  Inv w → (∀ r, r < length (heap w) → webSocket (deref w r) ≠ ws) →
  ws < sockets w → (∃ raw, name = trim raw) →
  Inv (handleSession ws name w).
Proof.
  intros HI Hfresh Hlt Hraw. rewrite handleSession_unfold.
  destruct (Inv_registered ws name w HI Hfresh Hlt Hraw) as [HI3 ->]. cbv zeta.
  set (w3 := set_sessions _ _) in *.
  set (w4 := broadcastUserList w3).
  set (w6 := broadcast _ _).
  assert (same_objects w3 w6) as [Hlen Hobj].
  { eapply same_objects_trans; [apply broadcast_same_objects|].
    eapply same_objects_trans; [|apply broadcast_same_objects].
    by apply same_objects_heap. }
  assert (listeners w6 = listeners w) as Hl.
  { unfold w6. rewrite (proj1 (broadcast_frame _ _)).
    change (listeners (toISOString_now w4).2) with (listeners w4).
    unfold w4. rewrite broadcastUserList_unfold.
    by rewrite (proj1 (broadcast_frame _ _)). }
  assert (deref w3 (length (heap w)) = mkSession ws name false) as Hnew.
  { unfold w3, deref. simpl. by rewrite list_lookup_total_middle. }
  apply Inv_add_listener; cbn [c_session c_webSocket c_username].
  - by apply Inv_broadcast, Inv_tick, Inv_broadcastUserList.
  - rewrite Hlen. unfold w3. simpl. rewrite length_app. simpl. lia.
  - destruct (Hobj (length (heap w))) as (-> & _). by rewrite Hnew.
  - destruct (Hobj (length (heap w))) as (_ & -> & _). by rewrite Hnew.
  - rewrite Hl. intros (c & Heq & Hc)%list_elem_of_fmap.
    destruct (inv_closure w HI c Hc) as (Hr & Hw & _).
    apply (Hfresh (c_session c) Hr). congruence.
Qed.

Lemma fetch_unfold request w :
  fetch request w =
  if bool_decide (upgrade request = Some (lit "websocket")) then
    match username_param request with
    | None => (w, Resp 400 (Some (lit "Username is required")) None)
    | Some username =>
        if bool_decide (username = []) || bool_decide (length (trim username) = 0)
        then (w, Resp 400 (Some (lit "Username is required")) None)
        else
          (handleSession (S (sockets w)) (trim username) (WebSocketPair w).2,
           Resp 101 None (Some (sockets w)))
    end
  else (w, Resp 426 (Some (lit "Expected WebSocket")) None).
Proof. reflexivity. Qed.

Lemma Inv_WebSocketPair w : Inv w → Inv (WebSocketPair w).2.
Proof.
  intros [I1 I2 I3 I4 I5 I6]. split; simpl; try done.
  intros r Hr. specialize (I3 r Hr). unfold deref in *. simpl. lia.
Qed.

Lemma Inv_fetch request w : Inv w → Inv (fetch request w).1.
Proof.
  intros HI. rewrite fetch_unfold.
  destruct (bool_decide _); [|done].
  destruct (username_param request) as [name|]; [|done].
  destruct (_ || _); [done|]. simpl.
  apply Inv_handleSession; simpl.
  - by apply Inv_WebSocketPair.
  - intros r Hr. pose proof (inv_sockets w HI r Hr).
    unfold deref in *. simpl. lia.
  - lia.
  - by eexists.
Qed.

(** *** What a reaction leaves in place *)

Lemma tick_unfold w :
  toISOString_now w =
  (clock (ticks w),
   mkWorld (sessions w) (heap w) (listeners w) (sockets w) (S (ticks w))
     (trace w)).
Proof. reflexivity. Qed.

Lemma on_close_listeners c w : listeners (on_close c w) = listeners w.
Proof.
  rewrite on_close_unfold. cbv zeta.
  rewrite (proj1 (broadcast_frame _ _)), tick_unfold. cbn [snd listeners].
  rewrite broadcastUserList_unfold.
  by rewrite (proj1 (broadcast_frame _ _)).
Qed.

Lemma on_error_listeners c w : listeners (on_error c w) = listeners w.
Proof.
  rewrite on_error_unfold, broadcastUserList_unfold.
  by rewrite (proj1 (broadcast_frame _ _)).
Qed.

Lemma message_try_listeners c data w :
  listeners (message_try c data w).1 = listeners w.
Proof.
  unfold message_try.
  destruct data as [s|]; [|done].
  destruct (JSON_parse s) as [v|]; [|done].
  destruct (get_property v (lit "type")) as [type|]; [|done].
  destruct (_ && _).
  { unfold toISOString_now. cbn [fst].
    by rewrite (proj1 (broadcast_frame _ _)). }
  by destruct (strict_eq_string type (lit "ping")).
Qed.

Lemma on_message_listeners c data w :
  listeners (on_message c data w).1 = listeners w.
Proof.
  rewrite on_message_unfold. cbv zeta.
  pose proof (message_try_listeners c data w).
  by destruct (message_try c data w).2.
Qed.

Lemma Inv_dispatch (handler : Closure → World → World) ws cs w :
  (∀ c w, Inv w → c ∈ listeners w →
          Inv (handler c w) ∧ listeners (handler c w) = listeners w) →
  Inv w → (∀ c, c ∈ cs → c ∈ listeners w) →
  Inv (dispatch handler ws cs w).
Proof.
  intros Hh. revert w. induction cs as [|c cs IH]; intros w HI Hcs; [done|].
  simpl. destruct (decide (c_webSocket c = ws)).
  - destruct (Hh c w HI) as [HI' Hl]; [apply Hcs; left|].
    apply IH; [done|]. intros c' Hc'. rewrite Hl. apply Hcs. by right.
  - apply IH; [done|]. intros c' Hc'. apply Hcs. by right.
Qed.

Lemma Inv_react e w : Inv w → Inv (react e w).
Proof.
  intros HI. destruct e as [request|ws data|ws|ws]; simpl.
  - by apply Inv_fetch.
  - apply Inv_dispatch; [|done..]. intros c w' HI' _.
    split; [by apply Inv_on_message|apply on_message_listeners].
  - apply Inv_dispatch; [|done..]. intros c w' HI' Hc.
    split; [by apply Inv_on_close|apply on_close_listeners].
  - apply Inv_dispatch; [|done..]. intros c w' HI' Hc.
    split; [by apply Inv_on_error|apply on_error_listeners].
Qed.

Lemma run_snoc events e w : run (events ++ [e]) w = react e (run events w).
Proof. unfold run. by rewrite foldl_snoc. Qed.

Lemma run_app events1 events2 w :
  run (events1 ++ events2) w = run events2 (run events1 w).
Proof. unfold run. by rewrite foldl_app. Qed.

Lemma Inv_run events w : Inv w → Inv (run events w).
Proof.
  intros HI. induction events as [|e events IH] using rev_ind; [done|].
  rewrite run_snoc. by apply Inv_react.
Qed.

Lemma reachable_Inv w : reachable w → Inv w.
Proof. intros [events ->]. apply Inv_run, Inv_init. Qed.

Lemma reachable_react e w : reachable w → reachable (react e w).
Proof. intros [events ->]. exists (events ++ [e]). by rewrite run_snoc. Qed.

(** In the invariant no registered session is marked, so the roster names
    every entry of the map. *)
Lemma roster_Inv w : Inv w → roster w = registered_usernames w.
Proof.
  intros HI. unfold roster, roster_entries, registered_usernames.
  rewrite filter_all.
  - by rewrite <- list_fmap_compose.
  - intros r ([ws r'] & -> & Hin)%list_elem_of_fmap. by apply (inv_entry w HI ws).
Qed.

(** *** No session returns to the map *)

Lemma no_return_refl w : no_return w w.
Proof. split; [lia|]. by left. Qed.

Lemma no_return_trans w1 w2 w3 :
  no_return w1 w2 → no_return w2 w3 → no_return w1 w3.
Proof.
  intros [Hl1 H1] [Hl2 H2]. split; [lia|]. intros r Hr.
  destruct (H2 r Hr) as [Hr'|?]; [|right; lia]. by apply H1.
Qed.

Lemma no_return_sub w w' :
  length (heap w') = length (heap w) →
  (∀ e, e ∈ sessions w' → e ∈ sessions w) → no_return w w'.
Proof.
  intros Hl Hsub. split; [lia|]. intros r (e & -> & He)%list_elem_of_fmap.
  left. apply list_elem_of_fmap_2. by apply Hsub.
Qed.

Lemma no_return_broadcast m w : no_return w (broadcast m w).
Proof.
  apply no_return_sub; [apply broadcast_same_objects|].
  intros e. rewrite broadcast_sessions. by intros [_ ?]%list_elem_of_filter.
Qed.

Lemma no_return_evicted c w : no_return w (evicted c w).
Proof.
  apply no_return_sub; simpl; [apply length_alter|].
  by intros e [_ ?]%list_elem_of_filter.
Qed.

Lemma no_return_on_close c w : no_return w (on_close c w).
Proof.
  rewrite on_close_unfold. cbv zeta.
  eapply no_return_trans; [apply no_return_evicted|].
  eapply no_return_trans; [apply no_return_broadcast|].
  eapply no_return_trans; [|apply no_return_broadcast].
  by apply no_return_sub.
Qed.

Lemma no_return_on_error c w : no_return w (on_error c w).
Proof.
  rewrite on_error_unfold.
  eapply no_return_trans; [apply no_return_evicted|].
  apply no_return_broadcast.
Qed.

Lemma no_return_on_message c data w : no_return w (on_message c data w).1.
Proof.
  rewrite on_message_unfold. cbv zeta.
  assert (no_return w (message_try c data w).1) as Htry.
  { unfold message_try.
    destruct data as [s|]; [|apply no_return_refl].
    destruct (JSON_parse s) as [v|]; [|apply no_return_refl].
    destruct (get_property v (lit "type")) as [type|]; [|apply no_return_refl].
    destruct (_ && _).
    { cbn [fst]. eapply no_return_trans; [|apply no_return_broadcast].
      by apply no_return_sub. }
    destruct (strict_eq_string type (lit "ping")); [|apply no_return_refl].
    by apply no_return_sub. }
  destruct (message_try c data w).2; [done|].
  eapply no_return_trans; [apply Htry|]. by apply no_return_sub.
Qed.

Lemma elem_of_Map_set k v m e : e ∈ Map_set k v m → e ∈ m ∨ e = (k, v).
Proof.
  induction m as [|[k' v'] m IH]; simpl.
  - intros ->%list_elem_of_singleton. by right.
  - destruct (decide (k' = k)).
    + intros [->|?]%elem_of_cons; [by right|]. left. by right.
    + intros [->|[?|?]%IH]%elem_of_cons; [left; left|left; by right|by right].
Qed.

Lemma no_return_handleSession ws name w :
  no_return w (handleSession ws name w).
Proof.
  rewrite handleSession_unfold. cbv zeta.
  set (w3 := set_sessions _ _).
  assert (no_return w w3) as H3.
  { split; unfold w3; simpl; [rewrite length_app; lia|].
    intros r ([k v] & -> & [Hin| [= -> ->]]%elem_of_Map_set)%list_elem_of_fmap.
    - left. by apply (list_elem_of_fmap_2 snd) in Hin.
    - right. simpl. lia. }
  eapply no_return_trans; [apply H3|].
  eapply no_return_trans; [apply no_return_broadcast|].
  eapply no_return_trans; [|by apply no_return_sub].
  eapply no_return_trans; [|apply no_return_broadcast].
  by apply no_return_sub.
Qed.

Lemma no_return_fetch request w : no_return w (fetch request w).1.
Proof.
  rewrite fetch_unfold.
  destruct (bool_decide _); [|apply no_return_refl].
  destruct (username_param request) as [name|]; [|apply no_return_refl].
  destruct (_ || _); [apply no_return_refl|]. cbn [fst].
  eapply no_return_trans; [|apply no_return_handleSession].
  by apply no_return_sub.
Qed.

Lemma no_return_dispatch (handler : Closure → World → World) ws cs w :
  (∀ c w, no_return w (handler c w)) →
  no_return w (dispatch handler ws cs w).
Proof.
  intros Hh. revert w. induction cs as [|c cs IH]; intros w; simpl.
  - apply no_return_refl.
  - destruct (decide (c_webSocket c = ws)); [|apply IH].
    eapply no_return_trans; [apply Hh|apply IH].
Qed.

Lemma no_return_react e w : no_return w (react e w).
Proof.
  destruct e as [request|ws data|ws|ws]; simpl.
  - apply no_return_fetch.
  - apply no_return_dispatch. intros c w'. apply no_return_on_message.
  - apply no_return_dispatch. intros c w'. apply no_return_on_close.
  - apply no_return_dispatch. intros c w'. apply no_return_on_error.
Qed.

Lemma no_return_run events w : no_return w (run events w).
Proof.
  induction events as [|e events IH] using rev_ind; [apply no_return_refl|].
  rewrite run_snoc. eapply no_return_trans; [apply IH|apply no_return_react].
Qed.

(** *** What each listener adds to the trace *)

Lemma since_trans w1 w2 w3 d1 d2 :
  trace w2 = trace w1 ++ d1 → trace w3 = trace w2 ++ d2 →
  since w1 w3 = d1 ++ d2.
Proof. intros H1 H2. apply since_app. by rewrite H2, H1, app_assoc. Qed.

Lemma Inv_keys w : Inv w → ∀ e, e ∈ sessions w → webSocket (deref w e.2) = e.1.
Proof. intros HI [ws r] Hin. by apply (inv_entry w HI). Qed.

Lemma roster_evicted c w :
  Inv w → c ∈ listeners w →
  roster (evicted c w) =
  (λ e, username (deref w e.2)) <$> Map_delete (c_webSocket c) (sessions w).
Proof.
  intros HI Hc. rewrite roster_Inv by by apply Inv_evicted.
  unfold registered_usernames, evicted. cbn [sessions set_sessions].
  apply list_fmap_ext. intros _ e _.
  destruct (mark_quit_fields (c_session c) w e.2) as (_ & Hu & _). exact Hu.
Qed.

Lemma on_error_since c w :
  Inv w → c ∈ listeners w →
  since w (on_error c w) =
  broadcast_events (UserListMessage (roster (evicted c w))) (evicted c w).
Proof.
  intros HI Hc. rewrite on_error_unfold, broadcastUserList_unfold.
  apply since_app.
  rewrite broadcast_trace by by apply Inv_keys, Inv_evicted. done.
Qed.

Lemma on_close_since c w :
  Inv w → c ∈ listeners w →
  since w (on_close c w) =
  broadcast_events (UserListMessage (roster (evicted c w))) (evicted c w)
  ++ broadcast_events
       (ChatMessage (lit "System")
          (JString (c_username c ++ lit " left the chat")) (clock (ticks w)))
       (broadcastUserList (evicted c w)).
Proof.
  intros HI Hc. rewrite on_close_unfold. cbv zeta.
  assert (Inv (broadcastUserList (evicted c w))) as HI3
    by by apply Inv_broadcastUserList, Inv_evicted.
  assert (ticks (broadcastUserList (evicted c w)) = ticks w) as ->.
  { rewrite broadcastUserList_unfold.
    by rewrite (proj2 (proj2 (broadcast_frame _ _))). }
  apply (since_trans _ (broadcastUserList (evicted c w))).
  - rewrite broadcastUserList_unfold.
    rewrite broadcast_trace by by apply Inv_keys, Inv_evicted. done.
  - rewrite broadcast_trace by by apply Inv_keys, Inv_tick. done.
Qed.

Lemma on_close_sessions c w e :
  e ∈ sessions (on_close c w) → e ∈ Map_delete (c_webSocket c) (sessions w).
Proof.
  rewrite on_close_unfold. cbv zeta. rewrite broadcast_sessions.
  intros [_ Hin]%list_elem_of_filter. revert Hin. unfold toISOString_now.
  cbn [snd sessions]. rewrite broadcastUserList_unfold, broadcast_sessions.
  by intros [_ Hin]%list_elem_of_filter.
Qed.

Lemma on_error_sessions c w e :
  e ∈ sessions (on_error c w) → e ∈ Map_delete (c_webSocket c) (sessions w).
Proof.
  rewrite on_error_unfold, broadcastUserList_unfold, broadcast_sessions.
  by intros [_ Hin]%list_elem_of_filter.
Qed.

(** Neither the socket nor the session of a listener is in what remains of
    the map once its own entry is deleted. *)
Lemma deleted_gone c w (m : list (WebSocket * ref)) :
  Inv w → c ∈ listeners w →
  (∀ e, e ∈ m → e ∈ Map_delete (c_webSocket c) (sessions w)) →
  (c_webSocket c ∉ m.*1) ∧ (c_session c ∉ m.*2).
Proof.
  intros HI Hc Hsub. split.
  - intros (e & Heq & Hin)%list_elem_of_fmap.
    apply (Map_delete_keys (c_webSocket c) (sessions w)).
    apply list_elem_of_fmap. exists e. split; [done|]. by apply Hsub.
  - intros ([ws r] & Heq & Hin)%list_elem_of_fmap. simpl in Heq. subst r.
    apply Hsub in Hin. apply list_elem_of_filter in Hin as [Hne Hin].
    simpl in Hne. destruct (inv_entry w HI _ _ Hin) as (_ & Hws & _).
    destruct (inv_closure w HI c Hc) as (_ & Hws' & _). congruence.
Qed.

Lemma registered_usernames_snoc ws name w :
  Inv w →
  registered_usernames
    (set_sessions (sessions w ++ [(ws, length (heap w))])
       (set_heap (heap w ++ [mkSession ws name false]) (log (Accept ws) w)))
  = registered_usernames w ++ [name].
Proof.
  intros HI. unfold registered_usernames, deref. simpl.
  rewrite fmap_app. simpl. rewrite list_lookup_total_middle by done.
  f_equal. apply list_fmap_ext. intros _ [ws' r] Hin%list_elem_of_lookup_2.
  simpl. destruct (inv_entry w HI ws' r Hin) as (Hr & _).
  by rewrite lookup_total_app_l.
Qed.


(** *** The message listener, case by case *)

Lemma message_try_chat c s data w :
  JSON_parse s = Some data → is_chat data = true →
  message_try c (Text s) w =
  (broadcast
     (ChatMessage (username (deref w (c_session c)))
        (default JUndefined (get_property data (lit "text")))
        (clock (ticks w)))
     (toISOString_now w).2, true).
Proof.
  unfold message_try, is_chat. intros -> Hchat.
  destruct (get_property data (lit "type")) as [type|]; [|done].
  by rewrite Hchat.
Qed.

Lemma message_try_ping c s data w :
  JSON_parse s = Some data → is_chat data = false → is_ping data = true →
  let pong := PongMessage (clock (ticks w))
                (default JUndefined (get_property data (lit "id")))
                (clock (S (ticks w))) in
  message_try c (Text s) w =
  send (c_webSocket c) (JSON_stringify pong)
    (log (Stringify pong) (toISOString_now (toISOString_now w).2).2).
Proof.
  unfold message_try, is_chat, is_ping. intros -> Hchat Hping.
  destruct (get_property data (lit "type")) as [type|]; [|done].
  by rewrite Hchat, Hping.
Qed.

Lemma message_try_other c s data w :
  JSON_parse s = Some data → is_Some (get_property data (lit "type")) →
  is_chat data = false → is_ping data = false →
  message_try c (Text s) w = (w, true).
Proof.
  unfold message_try, is_chat, is_ping. intros -> [type ->] Hchat Hping.
  by rewrite Hchat, Hping.
Qed.

Lemma message_try_throws c s w :
  JSON_parse s = None ∨
  (∃ data, JSON_parse s = Some data ∧ get_property data (lit "type") = None) →
  message_try c (Text s) w = (w, false).
Proof.
  unfold message_try. intros [->|(data & -> & ->)]; done.
Qed.

(** The [catch] block: one serialization and one [send], to the socket of
    the listener. *)
Lemma on_message_catch c data w :
  message_try c data w = (w, false) →
  let error := ErrorMessage (lit "Invalid message format") in
  let ok := negb (send_throws (trace w ++ [Stringify error]) (c_webSocket c)
                    (JSON_stringify error)) in
  on_message c data w =
  (log (Send (c_webSocket c) (JSON_stringify error) ok)
     (log (Stringify error) w),
   if ok then Fulfilled else Rejected).
Proof. intros Htry. rewrite on_message_unfold, Htry. done. Qed.

(** *** Shared steps of the main results *)



Lemma broadcast_events_to_all m w :
  sends (broadcast_events m w) = to_all m w.
Proof.
  rewrite broadcast_events_sends. unfold to_all.
  by rewrite <- list_fmap_compose.
Qed.

Lemma since_two_logs w e1 e2 : since w (log e2 (log e1 w)) = [e1; e2].
Proof. apply since_app. simpl. by rewrite <- app_assoc. Qed.

Lemma catch_reply c data w :
  message_try c data w = (w, false) → error_reply_only c data w.
Proof.
  intros Htry. unfold error_reply_only.
  rewrite (on_message_catch c data w Htry). cbn [fst].
  rewrite since_two_logs. done.
Qed.

Lemma is_ping_not_chat data : is_ping data = true → is_chat data = false.
Proof.
  unfold is_ping, is_chat.
  destruct (get_property data (lit "type")) as [[]|]; try done.
  simpl. intros ->%bool_decide_eq_true. done.
Qed.

Lemma on_message_chat c s data w :
  JSON_parse s = Some data → is_chat data = true →
  on_message c (Text s) w =
  (broadcast
     (ChatMessage (username (deref w (c_session c)))
        (default JUndefined (get_property data (lit "text")))
        (clock (ticks w)))
     (toISOString_now w).2, Fulfilled).
Proof.
  intros Hs Hchat.
  by rewrite on_message_unfold, (message_try_chat c s data w Hs Hchat).
Qed.

Lemma on_message_chat_since c s data w :
  Inv w → JSON_parse s = Some data → is_chat data = true →
  since w (on_message c (Text s) w).1 =
  broadcast_events
    (ChatMessage (username (deref w (c_session c)))
       (default JUndefined (get_property data (lit "text")))
       (clock (ticks w))) w.
Proof.
  intros HI Hs Hchat. rewrite (on_message_chat c s data w Hs Hchat).
  cbn [fst]. apply since_app.
  rewrite broadcast_trace by by apply Inv_keys, Inv_tick. done.
Qed.

Lemma evicted_forever r w events :
  r < length (heap w) → r ∉ (sessions w).*2 →
  r ∉ (sessions (run events w)).*2.
Proof.
  intros Hr Hout Hin.
  destruct (no_return_run events w) as [_ Hback].
  destruct (Hback r Hin); [done|lia].
Qed.


(** *** Main results *)

(** C1 (amended).  A text frame that [JSON.parse] rejects gets exactly one
    reply: the error message is serialized once and sent once, to the
    socket the frame came from and to no other, and neither the map nor any
    session changes.  A frame that is not text is skipped by the [typeof]
    guard: the room stays exactly as it was and nothing is sent. *)
Theorem unparsable_text_gets_error_reply c w :
  (∀ s, JSON_parse s = None → error_reply_only c (Text s) w) ∧
  ignored c Binary w.
Proof.
  split; [|done].
  intros s Hs. apply catch_reply, message_try_throws. by left.
Qed.

(** From a reachable state, the close listener of a connection removes its
    session from the map, broadcasts the roster of the sessions that remain,
    and then broadcasts the notice from "System" with the text
    "<username> left the chat".  The error listener removes the session and
    broadcasts the same roster, and stops there. *)
Lemma departures_on_close_and_on_error c w :
  reachable w → c ∈ listeners w →
  (departure_announced c w (on_close c w) ∧
   sends (since w (on_close c w)) =
   to_all (UserListMessage (roster_without c w)) (evicted c w)
   ++ to_all (departure_notice c w) (broadcastUserList (evicted c w))) ∧
  (departure_unannounced c w (on_error c w) ∧
   sends (since w (on_error c w)) =
   to_all (UserListMessage (roster_without c w)) (evicted c w)).
Proof.
  intros HI%reachable_Inv Hc.
  pose proof (on_close_since c w HI Hc) as Hclose.
  pose proof (on_error_since c w HI Hc) as Herror.
  rewrite (roster_evicted c w HI Hc) in Hclose, Herror.
  fold (roster_without c w) in Hclose, Herror.
  repeat split.
  - apply (deleted_gone c w _ HI Hc), on_close_sessions.
  - apply (deleted_gone c w _ HI Hc), on_close_sessions.
  - rewrite Hclose, stringified_app, !broadcast_events_stringified. done.
  - by rewrite Hclose, sends_app, !broadcast_events_to_all.
  - apply (deleted_gone c w _ HI Hc), on_error_sessions.
  - apply (deleted_gone c w _ HI Hc), on_error_sessions.
  - by rewrite Herror, broadcast_events_stringified.
  - by rewrite Herror, broadcast_events_to_all.
Qed.

(** C3.  Whatever the message and the state of the room, a call of
    [broadcast] in which no [send] throws serializes the message once and
    then calls [send] once per entry of the map, on the socket of that
    entry's session, each time with that one serialized payload: N entries,
    N sends. *)
Theorem broadcast_sends_one_payload_to_each m w :
  failures (since w (broadcast m w)) = [] →
  since w (broadcast m w) =
  Stringify m
  :: ((λ e, Send (webSocket (deref w e.2)) (JSON_stringify m) true)
        <$> sessions w) ∧
  length (sends (since w (broadcast m w))) = length (sessions w).
Proof.
  intros Hnone.
  rewrite (since_app _ _ _ (broadcast_trace_sockets m w)) in *.
  simpl in Hnone. pose proof (deliveries_no_failure _ _ _ Hnone) as Hd.
  split.
  - rewrite Hd. by rewrite <- list_fmap_compose.
  - simpl. rewrite deliveries_sends, !length_fmap. done.
Qed.

(** C4.  In every state the room reaches, and so at the end of every
    reaction to an admission, a frame, a close or an error, no session in
    the map has [quit] set; and whenever [broadcast] returns, from any
    state at all, no session left in the map has [quit] set. *)
Theorem registered_sessions_are_not_quit w :
  reachable w →
  (∀ ws r, (ws, r) ∈ sessions w → quit (deref w r) = false) ∧
  (∀ e ws r, (ws, r) ∈ sessions (react e w) →
             quit (deref (react e w) r) = false) ∧
  (∀ m (w0 : World) ws r, (ws, r) ∈ sessions (broadcast m w0) →
             quit (deref (broadcast m w0) r) = false).
Proof.
  intros Hw. split; [|split].
  - intros ws r Hin. by apply (inv_entry w (reachable_Inv w Hw) ws r).
  - intros e ws r Hin.
    by apply (inv_entry _ (reachable_Inv _ (reachable_react e w Hw)) ws r).
  - intros m w0 ws r. rewrite broadcast_sessions.
    by intros [? _]%list_elem_of_filter.
Qed.


(** C7.  From a reachable state, when a registered session with username
    [u] sends a frame [{type: "message", text: t}] with [t] a non-empty
    string, the listener is fulfilled after exactly one broadcast: one
    message is serialized, carrying [u], [t] as it came and the time read
    from the clock during the reaction, and that payload is sent once to
    the socket of every registered session, the sender's among them. *)
Theorem chat_frame_is_broadcast_to_all c s data t w :
  reachable w → c ∈ listeners w →
  (c_webSocket c, c_session c) ∈ sessions w →
  JSON_parse s = Some data →
  get_property data (lit "type") = Some (JString (lit "message")) →
  get_property data (lit "text") = Some (JString t) → t ≠ [] →
  let u := username (deref w (c_session c)) in
  let chat := ChatMessage u (JString t) (clock (ticks w)) in
  let w' := (on_message c (Text s) w).1 in
  (on_message c (Text s) w).2 = Fulfilled ∧
  stringified (since w w') = [chat] ∧
  sends (since w w') = to_all chat w ∧
  (c_webSocket c, JSON_stringify chat) ∈ sends (since w w') ∧
  u = c_username c.
Proof.
  intros HI%reachable_Inv Hc Hreg Hs Htype Htext Ht u chat w'.
  assert (is_chat data = true) as Hchat.
  { unfold is_chat. rewrite Htype, Htext. simpl.
    by rewrite bool_decide_eq_false_2. }
  unfold w'. rewrite (on_message_chat_since c s data w HI Hs Hchat).
  rewrite (on_message_chat c s data w Hs Hchat), Htext.
  cbn [snd default]. fold u. fold chat.
  rewrite broadcast_events_stringified, broadcast_events_to_all.
  repeat split.
  - unfold to_all. by apply (list_elem_of_fmap_2' _ _ _ _ Hreg).
  - by apply (inv_closure w HI c Hc).
Qed.

(** C8.  For a frame [{type: "ping", id}] the listener reads the clock
    twice, serializes one pong that carries the [id] of the frame as it
    came, and sends it once, to the socket the frame came from.  It calls
    [send] on no other socket and does not go through [broadcast]: the map
    and the sessions stay as they were.  Only when that [send] throws does
    the [catch] block add the error reply, to the same socket. *)
Theorem ping_gets_one_pong c s data w :
  JSON_parse s = Some data → is_ping data = true →
  let pong := PongMessage (clock (ticks w))
                (default JUndefined (get_property data (lit "id")))
                (clock (S (ticks w))) in
  let ok := negb (send_throws (trace w ++ [Stringify pong]) (c_webSocket c)
                    (JSON_stringify pong)) in
  let w' := (on_message c (Text s) w).1 in
  stringified (since w w') = pong :: (if ok then [] else [invalid_format]) ∧
  sends (since w w') =
  (c_webSocket c, JSON_stringify pong)
  :: (if ok then []
      else [(c_webSocket c, JSON_stringify invalid_format)]) ∧
  (∀ ws p, (ws, p) ∈ sends (since w w') → ws = c_webSocket c) ∧
  sessions w' = sessions w ∧ heap w' = heap w.
Proof.
  intros Hs Hping pong ok w'.
  pose proof (message_try_ping c s data w Hs (is_ping_not_chat _ Hping) Hping)
    as Htry. cbv zeta in Htry. fold pong in Htry.
  assert (since w w' =
          Stringify pong :: Send (c_webSocket c) (JSON_stringify pong) ok
          :: (if ok then []
              else [Stringify invalid_format;
                    Send (c_webSocket c) (JSON_stringify invalid_format)
                      (negb (send_throws
                               (trace w ++ [Stringify pong;
                                  Send (c_webSocket c) (JSON_stringify pong) ok;
                                  Stringify invalid_format])
                               (c_webSocket c) (JSON_stringify invalid_format)))])
          ∧ sessions w' = sessions w ∧ heap w' = heap w)
    as (Hsince & Hsessions & Hheap).
  { unfold w'. rewrite on_message_unfold, Htry. unfold send. cbn [fst snd].
    cbn [trace log toISOString_now snd]. fold ok.
    destruct ok; cbn [fst]; (split; [|done]); apply since_app; simpl;
      rewrite <- ?app_assoc; done. }
  rewrite Hsince. split; [|split; [|split]]; [by destruct ok..| |done].
  intros ws p. destruct ok; simpl.
  - by intros [= -> _]%list_elem_of_singleton.
  - intros [[= -> _]|[= -> _]%list_elem_of_singleton]%elem_of_cons; done.
Qed.

(** C9 (amended).  A text frame that parses to a value other than [null]
    and that is neither a chat frame (type "message" with a truthy text)
    nor a ping frame is ignored: the room stays exactly as it was, nothing
    is serialized and nothing is sent.  A frame that parses to [null] makes
    the listener throw on [data.type], and gets the error reply. *)
Theorem other_frames_are_ignored_but_null c s data w :
  JSON_parse s = Some data →
  (data ≠ JNull → data ≠ JUndefined →
   is_chat data = false → is_ping data = false →
   ignored c (Text s) w) ∧
  (data = JNull → error_reply_only c (Text s) w).
Proof.
  intros Hs. split.
  - intros Hnull Hundef Hchat Hping. unfold ignored.
    rewrite on_message_unfold, (message_try_other c s data w); try done.
    by destruct data.
  - intros ->. apply catch_reply, message_try_throws. right. by exists JNull.
Qed.

(** C10.  Two text frames that [JSON.parse] rejects get the same reply,
    whatever they contain: the listener ends in the same state with the
    same result, having serialized the one message
    [{type: "error", message: "Invalid message format"}], in which nothing
    of the frame appears. *)
Theorem error_reply_is_constant c s1 s2 w :
  JSON_parse s1 = None → JSON_parse s2 = None →
  on_message c (Text s1) w = on_message c (Text s2) w ∧
  stringified (since w (on_message c (Text s1) w).1)
  = [ErrorMessage (lit "Invalid message format")] ∧
  sends (since w (on_message c (Text s1) w).1)
  = [(c_webSocket c,
      JSON_stringify (ErrorMessage (lit "Invalid message format")))].
Proof.
  intros H1 H2.
  assert (∀ s, JSON_parse s = None → message_try c (Text s) w = (w, false))
    as Htry by (intros s Hs; apply message_try_throws; by left).
  split.
  - by rewrite !on_message_unfold, (Htry s1 H1), (Htry s2 H2).
  - destruct (catch_reply c (Text s1) w (Htry s1 H1)) as (? & ? & _). done.
Qed.

(** *** [trim] *)

Lemma trim_start_split s : ∃ pre, s = pre ++ trim_start s ∧ blank pre.
Proof.
  induction s as [|c s (pre & Hs & Hpre)]; simpl.
  - exists []. by split; [|constructor].
  - destruct (is_white_space c) eqn:Hc.
    + exists (c :: pre). split; [by rewrite Hs at 1|by constructor].
    + exists []. by split; [|constructor].
Qed.

Lemma trim_start_head s : starts_with_space (trim_start s) = false.
Proof.
  induction s as [|c s IH]; simpl; [done|].
  by destruct (is_white_space c) eqn:Hc; simpl.
Qed.

Lemma trim_start_fixed s : starts_with_space s = false → trim_start s = s.
Proof. destruct s as [|c s]; simpl; [done|]. by intros ->. Qed.

Lemma trim_start_blank s : trim_start s = [] ↔ blank s.
Proof.
  unfold blank. induction s as [|c s IH]; simpl.
  - split; [constructor|done].
  - destruct (is_white_space c) eqn:Hc.
    + rewrite IH. split; [by constructor|]. by intros [_ ?]%Forall_cons.
    + split; [done|]. intros [? _]%Forall_cons. congruence.
Qed.

Lemma blank_rev s : blank (rev s) ↔ blank s.
Proof.
  unfold blank. split; intros Hb.
  - rewrite <- (rev_involutive s). by apply Forall_rev.
  - by apply Forall_rev.
Qed.

Lemma trim_end_split s : ∃ suf, s = trim_end s ++ suf ∧ blank suf.
Proof.
  destruct (trim_start_split (rev s)) as (pre & Hs & Hpre).
  exists (rev pre). split; [|by apply blank_rev].
  unfold trim_end. by rewrite <- rev_app_distr, <- Hs, rev_involutive.
Qed.

(** [trim] removes a run of whitespace at each end, and nothing else. *)
Lemma trim_split s :
  ∃ pre suf, s = pre ++ trim s ++ suf ∧ blank pre ∧ blank suf.
Proof.
  destruct (trim_start_split s) as (pre & Hs & Hpre).
  destruct (trim_end_split (trim_start s)) as (suf & Ht & Hsuf).
  exists pre, suf. unfold trim. by rewrite <- Ht.
Qed.

Lemma rev_nil_inv {A} (l : list A) : rev l = [] → l = [].
Proof. intros Hl. by rewrite <- (rev_involutive l), Hl. Qed.

Lemma trim_blank s : trim s = [] ↔ blank s.
Proof.
  unfold trim, trim_end. split.
  - intros Ht%rev_nil_inv. apply (proj1 (trim_start_blank _)) in Ht.
    apply (proj1 (blank_rev _)) in Ht.
    pose proof (trim_start_head s) as Hhead.
    destruct (trim_start s) as [|c t] eqn:Hs; [by apply trim_start_blank|].
    apply Forall_cons in Ht as [Hc _]. simpl in Hhead. congruence.
  - intros Hb%trim_start_blank. by rewrite Hb.
Qed.

Lemma trim_ends s :
  starts_with_space (trim s) = false ∧
  starts_with_space (rev (trim s)) = false.
Proof.
  split.
  - destruct (trim_end_split (trim_start s)) as (suf & Ht & _).
    pose proof (trim_start_head s) as Hhead. unfold trim.
    destruct (trim_end (trim_start s)) as [|c u]; [done|].
    rewrite Ht in Hhead. done.
  - unfold trim, trim_end. rewrite rev_involutive. apply trim_start_head.
Qed.

Lemma trim_fixed u :
  starts_with_space u = false → starts_with_space (rev u) = false →
  trim u = u.
Proof.
  intros Hu Hr. unfold trim, trim_end.
  by rewrite (trim_start_fixed u Hu), (trim_start_fixed _ Hr), rev_involutive.
Qed.

Lemma trim_idempotent s : trim (trim s) = trim s.
Proof. by apply trim_fixed; apply trim_ends. Qed.

(** *** The answers of [fetch] *)

Lemma fetch_refuses_blank request w :
  upgrade request = Some (lit "websocket") →
  (username_param request = None ∨
   ∃ u, username_param request = Some u ∧ blank u) →
  fetch request w = (w, Resp 400 (Some (lit "Username is required")) None).
Proof.
  intros Hup Hname. rewrite fetch_unfold, bool_decide_eq_true_2 by done.
  destruct Hname as [->|(u & -> & Hb)]; [done|].
  apply trim_blank in Hb. rewrite Hb. simpl. by rewrite orb_true_r.
Qed.

Lemma fetch_admits request w u :
  upgrade request = Some (lit "websocket") →
  username_param request = Some u → ¬ blank u →
  (fetch request w).2 = Resp 101 None (Some (sockets w)).
Proof.
  intros Hup Hname Hb.
  rewrite fetch_unfold, bool_decide_eq_true_2, Hname by done.
  assert (u ≠ []) by (intros ->; apply Hb; constructor).
  assert (trim u ≠ []) by (by intros ?%trim_blank).
  rewrite !bool_decide_eq_false_2; [done|by destruct (trim u)|done].
Qed.

(** X1.  [fetch] answers 426 whenever the Upgrade header is not exactly
    "websocket", whatever the username; 400 when the header is right and
    the username is missing or made of whitespace only; and 101 with the
    client socket of a new pair in every other case.  Unless it answers
    101 it leaves the room exactly as it was. *)
Theorem fetch_answers request w :
  (upgrade request ≠ Some (lit "websocket") →
   fetch request w = (w, Resp 426 (Some (lit "Expected WebSocket")) None)) ∧
  (upgrade request = Some (lit "websocket") →
   (username_param request = None ∨
    ∃ u, username_param request = Some u ∧ blank u) →
   fetch request w = (w, Resp 400 (Some (lit "Username is required")) None)) ∧
  (upgrade request = Some (lit "websocket") →
   ∀ u, username_param request = Some u → ¬ blank u →
        (fetch request w).2 = Resp 101 None (Some (sockets w))) ∧
  (status (fetch request w).2 ≠ 101 → (fetch request w).1 = w).
Proof.
  repeat split.
  - intros Hup. by rewrite fetch_unfold, bool_decide_eq_false_2.
  - apply fetch_refuses_blank.
  - intros Hup u. by apply fetch_admits.
  - rewrite fetch_unfold. destruct (bool_decide _); [|done].
    destruct (username_param request) as [u|]; [|done].
    by destruct (_ || _).
Qed.

(** *** What a reaction keeps *)

Lemma handleSession_joined ws name w :
  handleSession ws name w =
  add_listener (mkClosure ws (length (heap w)) name)
    (broadcast
       (ChatMessage (lit "System") (JString (name ++ lit " joined the chat"))
          (clock (ticks (broadcastUserList (joined ws name w)))))
       (toISOString_now (broadcastUserList (joined ws name w))).2).
Proof. reflexivity. Qed.

Lemma broadcastUserList_same_objects w :
  same_objects w (broadcastUserList w).
Proof. apply broadcast_same_objects. Qed.

Lemma same_objects_evicted c w : same_objects w (evicted c w).
Proof.
  eapply same_objects_trans; [apply same_objects_mark_quit|].
  by apply same_objects_heap.
Qed.

Lemma same_objects_on_error c w : same_objects w (on_error c w).
Proof.
  rewrite on_error_unfold.
  eapply same_objects_trans; [apply same_objects_evicted|].
  apply broadcastUserList_same_objects.
Qed.

Lemma same_objects_on_close c w : same_objects w (on_close c w).
Proof.
  rewrite on_close_unfold. cbv zeta.
  eapply same_objects_trans; [apply same_objects_evicted|].
  eapply same_objects_trans; [apply broadcastUserList_same_objects|].
  eapply same_objects_trans; [|apply broadcast_same_objects].
  by apply same_objects_heap.
Qed.

Lemma same_objects_on_message c data w :
  same_objects w (on_message c data w).1.
Proof.
  rewrite on_message_unfold. cbv zeta.
  assert (same_objects w (message_try c data w).1) as Htry.
  { unfold message_try.
    destruct data as [s|]; [|apply same_objects_refl].
    destruct (JSON_parse s) as [v|]; [|apply same_objects_refl].
    destruct (get_property v (lit "type")) as [type|];
      [|apply same_objects_refl].
    destruct (_ && _).
    { cbn [fst]. eapply same_objects_trans; [|apply broadcast_same_objects].
      by apply same_objects_heap. }
    destruct (strict_eq_string type (lit "ping")); [|apply same_objects_refl].
    by apply same_objects_heap. }
  destruct (message_try c data w).2; [done|].
  eapply same_objects_trans; [apply Htry|]. by apply same_objects_heap.
Qed.

Lemma same_objects_joined ws name w :
  same_objects (joined ws name w) (handleSession ws name w).
Proof.
  rewrite handleSession_joined.
  eapply same_objects_trans; [apply broadcastUserList_same_objects|].
  eapply same_objects_trans; [|by apply same_objects_heap].
  eapply same_objects_trans; [|apply broadcast_same_objects].
  by apply same_objects_heap.
Qed.

Lemma kept_refl w : kept w w.
Proof. split; [lia|done]. Qed.

Lemma kept_trans w1 w2 w3 : kept w1 w2 → kept w2 w3 → kept w1 w3.
Proof.
  intros [Hl1 H1] [Hl2 H2]. split; [lia|]. intros r Hr.
  destruct (H1 r Hr) as (E1 & E2 & ?).
  destruct (H2 r) as (E3 & E4 & ?); [lia|].
  rewrite E3, E4, E1, E2. auto.
Qed.

Lemma kept_same_objects w w' : same_objects w w' → kept w w'.
Proof. intros [Hl Hf]. split; [lia|]. intros r _. apply Hf. Qed.

Lemma kept_joined ws name w : kept w (joined ws name w).
Proof.
  split; unfold joined, deref; simpl; [rewrite length_app; lia|].
  intros r Hr. by rewrite lookup_total_app_l.
Qed.

Lemma kept_handleSession ws name w : kept w (handleSession ws name w).
Proof.
  eapply kept_trans; [apply kept_joined|].
  apply kept_same_objects, same_objects_joined.
Qed.

Lemma kept_fetch request w : kept w (fetch request w).1.
Proof.
  rewrite fetch_unfold.
  destruct (bool_decide _); [|apply kept_refl].
  destruct (username_param request) as [name|]; [|apply kept_refl].
  destruct (_ || _); [apply kept_refl|]. cbn [fst].
  eapply kept_trans; [|apply kept_handleSession].
  by apply kept_same_objects, same_objects_heap.
Qed.

Lemma kept_dispatch (handler : Closure → World → World) ws cs w :
  (∀ c w, kept w (handler c w)) → kept w (dispatch handler ws cs w).
Proof.
  intros Hh. revert w. induction cs as [|c cs IH]; intros w; simpl.
  - apply kept_refl.
  - destruct (decide (c_webSocket c = ws)); [|apply IH].
    eapply kept_trans; [apply Hh|apply IH].
Qed.

Lemma kept_react e w : kept w (react e w).
Proof.
  destruct e as [request|ws data|ws|ws]; simpl.
  - apply kept_fetch.
  - apply kept_dispatch. intros c w'.
    apply kept_same_objects, same_objects_on_message.
  - apply kept_dispatch. intros c w'.
    apply kept_same_objects, same_objects_on_close.
  - apply kept_dispatch. intros c w'.
    apply kept_same_objects, same_objects_on_error.
Qed.

Lemma kept_run events w : kept w (run events w).
Proof.
  induction events as [|e events IH] using rev_ind; [apply kept_refl|].
  rewrite run_snoc. eapply kept_trans; [apply IH|apply kept_react].
Qed.

(** *** The map only loses entries, but on admission *)

Lemma sublist_evicted c w : sublist (sessions (evicted c w)) (sessions w).
Proof. apply sublist_filter. Qed.

Lemma sublist_on_error c w : sublist (sessions (on_error c w)) (sessions w).
Proof.
  rewrite on_error_unfold, broadcastUserList_unfold.
  etrans; [apply broadcast_sublist|apply sublist_evicted].
Qed.

Lemma sublist_on_close c w : sublist (sessions (on_close c w)) (sessions w).
Proof.
  rewrite on_close_unfold. cbv zeta.
  etrans; [apply broadcast_sublist|]. unfold toISOString_now.
  cbn [snd sessions]. rewrite broadcastUserList_unfold.
  etrans; [apply broadcast_sublist|apply sublist_evicted].
Qed.

Lemma sublist_on_message c data w :
  sublist (sessions (on_message c data w).1) (sessions w).
Proof.
  rewrite on_message_unfold. cbv zeta.
  assert (sublist (sessions (message_try c data w).1) (sessions w)) as Htry.
  { unfold message_try.
    destruct data as [s|]; [|done].
    destruct (JSON_parse s) as [v|]; [|done].
    destruct (get_property v (lit "type")) as [type|]; [|done].
    destruct (_ && _).
    { unfold toISOString_now. cbn [fst].
      etrans; [apply broadcast_sublist|done]. }
    by destruct (strict_eq_string type (lit "ping")). }
  by destruct (message_try c data w).2.
Qed.

Lemma sublist_handleSession ws name w :
  sublist (sessions (handleSession ws name w)) (sessions (joined ws name w)).
Proof.
  rewrite handleSession_joined. unfold add_listener. cbn [sessions].
  etrans; [apply broadcast_sublist|]. unfold toISOString_now.
  cbn [snd sessions]. rewrite broadcastUserList_unfold.
  apply broadcast_sublist.
Qed.

Lemma handleSession_listeners ws name w :
  listeners (handleSession ws name w) =
  listeners w ++ [mkClosure ws (length (heap w)) name].
Proof.
  rewrite handleSession_joined. unfold add_listener. cbn [listeners].
  rewrite (proj1 (broadcast_frame _ _)). unfold toISOString_now.
  cbn [snd listeners]. rewrite broadcastUserList_unfold.
  by rewrite (proj1 (broadcast_frame _ _)).
Qed.

Lemma dispatch_shrinks (handler : Closure → World → World) ws cs w :
  (∀ c w, sublist (sessions (handler c w)) (sessions w) ∧
          listeners (handler c w) = listeners w ∧
          length (heap (handler c w)) = length (heap w)) →
  sublist (sessions (dispatch handler ws cs w)) (sessions w) ∧
  listeners (dispatch handler ws cs w) = listeners w ∧
  length (heap (dispatch handler ws cs w)) = length (heap w).
Proof.
  intros Hh. revert w. induction cs as [|c cs IH]; intros w; simpl; [done|].
  destruct (decide (c_webSocket c = ws)); [|apply IH].
  destruct (Hh c w) as (Hs & Hl & Hn), (IH (handler c w)) as (Hs' & -> & ->).
  split; [by etrans|done].
Qed.

(** *** Listeners and events *)

Lemma dispatch_none (handler : Closure → World → World) ws cs w :
  ws ∉ c_webSocket <$> cs → dispatch handler ws cs w = w.
Proof.
  revert w. induction cs as [|c cs IH]; intros w; simpl; [done|].
  intros [Hne Hcs]%not_elem_of_cons.
  destruct (decide (c_webSocket c = ws)); [congruence|]. by apply IH.
Qed.

Lemma dispatch_unique (handler : Closure → World → World) c cs w :
  NoDup (c_webSocket <$> cs) → c ∈ cs →
  dispatch handler (c_webSocket c) cs w = handler c w.
Proof.
  revert w. induction cs as [|c0 cs IH]; intros w; simpl.
  - by intros _ ?%elem_of_nil.
  - intros [Hnotin Hnd]%list.NoDup_cons [->|Hin]%elem_of_cons.
    + rewrite decide_True by done. by apply dispatch_none.
    + rewrite decide_False; [by apply IH|].
      intros Heq. apply Hnotin. rewrite Heq. by apply list_elem_of_fmap_2.
Qed.

(** From a reachable state an event on the socket of a listener runs that
    listener, once, and no other. *)
Lemma react_runs_the_listener w c :
  reachable w → c ∈ listeners w →
  react (OnClose (c_webSocket c)) w = on_close c w ∧
  react (OnError (c_webSocket c)) w = on_error c w ∧
  ∀ data, react (OnMessage (c_webSocket c) data) w = (on_message c data w).1.
Proof.
  intros HI%reachable_Inv Hc. pose proof (inv_listeners w HI) as Hnd.
  repeat split; intros; simpl; by apply dispatch_unique.
Qed.

Lemma covered_react e w : covered w → covered (react e w).
Proof.
  intros Hcov. destruct e as [request|ws data|ws|ws]; simpl.
  - rewrite fetch_unfold.
    destruct (bool_decide _); [|done].
    destruct (username_param request) as [name|]; [|done].
    destruct (_ || _); [done|]. cbn [fst].
    intros ws r Hin. rewrite handleSession_listeners.
    apply (λ H, elem_of_sublist _ _ _ H (sublist_handleSession _ _ _)) in Hin.
    apply elem_of_Map_set in Hin as [Hin|[= -> ->]].
    + destruct (Hcov ws r Hin) as (c & Hc & ? & ?).
      exists c. split; [|done]. apply elem_of_app. by left.
    + eexists. split; [apply elem_of_app; right; left|done].
  - destruct (dispatch_shrinks (λ c w, (on_message c data w).1) ws
                (listeners w) w) as (Hs & Hl & _).
    { intros c w'. split; [apply sublist_on_message|].
      split; [apply on_message_listeners|].
      apply same_objects_on_message. }
    intros ws' r Hin. rewrite Hl. apply Hcov.
    by eapply elem_of_sublist.
  - destruct (dispatch_shrinks on_close ws (listeners w) w) as (Hs & Hl & _).
    { intros c w'. split; [apply sublist_on_close|].
      split; [apply on_close_listeners|apply same_objects_on_close]. }
    intros ws' r Hin. rewrite Hl. apply Hcov.
    by eapply elem_of_sublist.
  - destruct (dispatch_shrinks on_error ws (listeners w) w) as (Hs & Hl & _).
    { intros c w'. split; [apply sublist_on_error|].
      split; [apply on_error_listeners|apply same_objects_on_error]. }
    intros ws' r Hin. rewrite Hl. apply Hcov.
    by eapply elem_of_sublist.
Qed.

Lemma reachable_covered w : reachable w → covered w.
Proof.
  intros [events ->].
  induction events as [|e events IH] using rev_ind.
  - by intros ws r ?%elem_of_nil.
  - rewrite run_snoc. by apply covered_react.
Qed.

(** The closure of the listeners of a registered session. *)
Lemma registered_closure w ws r :
  reachable w → (ws, r) ∈ sessions w →
  mkClosure ws r (username (deref w r)) ∈ listeners w.
Proof.
  intros Hw Hin.
  destruct (reachable_covered w Hw ws r Hin) as ([ws' r' u] & Hc & ? & ?).
  simpl in *. subst ws' r'.
  destruct (inv_closure w (reachable_Inv w Hw) _ Hc) as (_ & _ & Hu).
  simpl in Hu. by rewrite Hu.
Qed.

Lemma Map_delete_absent k m : k ∉ m.*1 → Map_delete k m = m.
Proof.
  intros Hk. apply filter_all. intros e He Heq. apply Hk.
  rewrite <- Heq. by apply list_elem_of_fmap_2.
Qed.

Lemma filter_ext_in {A} (P Q : A → Prop) `{∀ x, Decision (P x)}
    `{∀ x, Decision (Q x)} (l : list A) :
  (∀ x, x ∈ l → P x ↔ Q x) → filter P l = filter Q l.
Proof.
  induction l as [|x l IH]; intros Hext; [done|].
  assert (filter P l = filter Q l) as Hl
    by (apply IH; intros y Hy; apply Hext; by right).
  rewrite !filter_cons, Hl.
  pose proof (Hext x ltac:(left)) as Hx.
  destruct (decide (P x)), (decide (Q x)); tauto.
Qed.

Lemma sublist_StronglySorted {A} (R : relation A) (l1 l2 : list A) :
  sublist l1 l2 → StronglySorted R l2 → StronglySorted R l1.
Proof.
  induction 1 as [|x l1 l2 Hsub IH|x l1 l2 Hsub IH]; intros Hs; [done|..].
  - apply StronglySorted_inv in Hs as [Hs Hall]. constructor; [by apply IH|].
    apply list.Forall_forall. intros y Hy.
    apply (proj1 (list.Forall_forall _ _) Hall).
    by eapply elem_of_sublist.
  - apply StronglySorted_inv in Hs as [Hs _]. by apply IH.
Qed.

(** *** Session objects *)

(** X2.  However the room got where it is, and whatever events follow, a
    session object keeps the socket and the username it was made with, a
    session marked [quit] stays marked, and a session that is not in the
    map never enters it again: a connection that comes back gets a new
    session. *)
Theorem sessions_never_change_nor_return w events r :
  r < length (heap w) →
  webSocket (deref (run events w) r) = webSocket (deref w r) ∧
  username (deref (run events w) r) = username (deref w r) ∧
  (quit (deref w r) = true → quit (deref (run events w) r) = true) ∧
  (r ∉ (sessions w).*2 → r ∉ (sessions (run events w)).*2).
Proof.
  intros Hr. destruct (kept_run events w) as [_ Hkept].
  destruct (Hkept r Hr) as (? & ? & ?).
  repeat split; try done. intros Hout. by apply evicted_forever.
Qed.

Lemma react_new_object e w r :
  length (heap w) ≤ r → r < length (heap (react e w)) →
  ∃ request raw,
    e = Fetch request ∧ upgrade request = Some (lit "websocket") ∧
    username_param request = Some raw ∧
    username (deref (react e w) r) = trim raw ∧ ¬ blank raw.
Proof.
  destruct e as [request|ws data|ws|ws]; simpl.
  - rewrite fetch_unfold.
    destruct (bool_decide _) eqn:Hup; [|cbn [fst]; lia].
    apply bool_decide_eq_true in Hup.
    destruct (username_param request) as [name|] eqn:Hparam;
      [|cbn [fst]; lia].
    destruct (_ || _) eqn:Hname; cbn [fst]; [lia|].
    apply orb_false_iff in Hname as [_ Htrim%bool_decide_eq_false].
    destruct (same_objects_joined (S (sockets w)) (trim name)
                (WebSocketPair w).2) as [Hlen Hobj].
    rewrite Hlen.
    assert (length (heap (joined (S (sockets w)) (trim name)
                            (WebSocketPair w).2)) = S (length (heap w)))
      as -> by (unfold joined; simpl; rewrite length_app; simpl; lia).
    intros Hge Hlt. assert (r = length (heap w)) as -> by lia.
    exists request, name. destruct (Hobj (length (heap w))) as (_ & Hu & _).
    rewrite Hu.
    assert (deref (joined (S (sockets w)) (trim name) (WebSocketPair w).2)
              (length (heap w))
            = mkSession (S (sockets w)) (trim name) false) as ->
      by (unfold joined, deref; simpl; by rewrite list_lookup_total_middle).
    split; [done|]. split; [done|]. split; [done|]. split; [done|].
    intros Hb%trim_blank. by rewrite Hb in Htrim.
  - destruct (dispatch_shrinks (λ c w, (on_message c data w).1) ws
                (listeners w) w) as (_ & _ & ->); [|lia].
    intros c w'. split; [apply sublist_on_message|].
    split; [apply on_message_listeners|apply same_objects_on_message].
  - destruct (dispatch_shrinks on_close ws (listeners w) w)
      as (_ & _ & ->); [|lia].
    intros c w'. split; [apply sublist_on_close|].
    split; [apply on_close_listeners|apply same_objects_on_close].
  - destruct (dispatch_shrinks on_error ws (listeners w) w)
      as (_ & _ & ->); [|lia].
    intros c w'. split; [apply sublist_on_error|].
    split; [apply on_error_listeners|apply same_objects_on_error].
Qed.

(** Every session object was made by a [fetch] of the history, from the
    [username] parameter of its request. *)
Lemma run_names events r :
  r < length (heap (run events init)) →
  ∃ request raw,
    Fetch request ∈ events ∧ upgrade request = Some (lit "websocket") ∧
    username_param request = Some raw ∧
    username (deref (run events init) r) = trim raw ∧ ¬ blank raw.
Proof.
  revert r. induction events as [|e events IH] using rev_ind; intros r.
  - simpl. lia.
  - rewrite run_snoc. intros Hr.
    destruct (decide (r < length (heap (run events init)))) as [Hold|Hnew].
    + destruct (kept_react e (run events init)) as [_ Hkept].
      destruct (Hkept r Hold) as (_ & -> & _).
      destruct (IH r Hold) as (request & raw & Hin & ?).
      exists request, raw. split; [|done].
      apply elem_of_app. by left.
    + destruct (react_new_object e (run events init) r)
        as (request & raw & -> & ?); [lia|done|].
      exists request, raw. split; [|done].
      apply elem_of_app. right. by apply list_elem_of_singleton.
Qed.

(** X3.  After any history of events, the username of every registered
    session is the [username] parameter of a WebSocket upgrade request of
    that history with the whitespace at its two ends removed: the
    parameter is the username between two runs of code units that [trim]
    strips.  So the username is not empty, it neither begins nor ends with
    such a code unit, and trimming it again changes nothing. *)
Theorem registered_usernames_are_trimmed events u :
  u ∈ registered_usernames (run events init) →
  u ≠ [] ∧ trim u = u ∧
  starts_with_space u = false ∧ starts_with_space (rev u) = false ∧
  ∃ request raw pre suf,
    Fetch request ∈ events ∧ upgrade request = Some (lit "websocket") ∧
    username_param request = Some raw ∧ u = trim raw ∧
    raw = pre ++ u ++ suf ∧ blank pre ∧ blank suf.
Proof.
  intros ([ws r] & -> & Hin)%list_elem_of_fmap. simpl.
  assert (reachable (run events init)) as Hw by by exists events.
  destruct (inv_entry _ (reachable_Inv _ Hw) ws r Hin) as (Hr & _).
  destruct (run_names events r Hr)
    as (request & raw & Hev & Hup & Hparam & -> & Hraw).
  destruct (trim_ends raw) as [Hhead Hlast].
  split; [by intros ?%trim_blank|]. split; [apply trim_idempotent|].
  split; [done|]. split; [done|].
  destruct (trim_split raw) as (pre & suf & ? & ? & ?).
  by exists request, raw, pre, suf.
Qed.

(** *** The order of the map *)

Lemma sorted_react e w :
  Inv w →
  StronglySorted lt (sessions w).*1 ∧ StronglySorted lt (sessions w).*2 →
  StronglySorted lt (sessions (react e w)).*1 ∧
  StronglySorted lt (sessions (react e w)).*2.
Proof.
  intros HI [Hk Hv].
  assert (∀ w', sublist (sessions w') (sessions w) →
            StronglySorted lt (sessions w').*1 ∧
            StronglySorted lt (sessions w').*2) as Hsub.
  { intros w' Hs.
    split; [apply (sublist_StronglySorted _ _ (sessions w).*1)
           |apply (sublist_StronglySorted _ _ (sessions w).*2)];
      try done; by apply fmap_sublist. }
  destruct e as [request|ws data|ws|ws]; simpl.
  - rewrite fetch_unfold.
    destruct (bool_decide _); [|done].
    destruct (username_param request) as [name|]; [|done].
    destruct (_ || _); [done|]. cbn [fst].
    pose proof (sublist_handleSession (S (sockets w)) (trim name)
                  (WebSocketPair w).2) as Hs.
    unfold joined in Hs. cbn [sessions set_sessions] in Hs.
    rewrite Map_set_fresh in Hs.
    + simpl in Hs.
      split; (eapply sublist_StronglySorted; [by apply fmap_sublist|]);
        rewrite fmap_app; (apply StronglySorted_app_2; [|done|by repeat constructor]);
        intros x1 x2 ([k v] & -> & Hin)%list_elem_of_fmap
          ->%list_elem_of_singleton;
        destruct (inv_entry w HI k v Hin) as (Hlt & Hws & _);
        pose proof (inv_sockets w HI v Hlt); simpl; lia.
    + simpl. intros ([k v] & Heq & Hin)%list_elem_of_fmap. simpl in Heq.
      destruct (inv_entry w HI k v Hin) as (Hlt & Hws & _).
      pose proof (inv_sockets w HI v Hlt). lia.
  - apply Hsub. apply (dispatch_shrinks (λ c w, (on_message c data w).1)).
    intros c w'. split; [apply sublist_on_message|].
    split; [apply on_message_listeners|apply same_objects_on_message].
  - apply Hsub. apply (dispatch_shrinks on_close).
    intros c w'. split; [apply sublist_on_close|].
    split; [apply on_close_listeners|apply same_objects_on_close].
  - apply Hsub. apply (dispatch_shrinks on_error).
    intros c w'. split; [apply sublist_on_error|].
    split; [apply on_error_listeners|apply same_objects_on_error].
Qed.

(** X4.  In every reachable state the map lists the sessions in the order
    in which they were admitted: along the map both the sockets and the
    addresses of the sessions, which [fetch] and [handleSession] hand out
    in increasing order, increase strictly.  The roster follows the same
    order. *)
Theorem map_is_in_admission_order w :
  reachable w →
  StronglySorted lt (sessions w).*1 ∧
  StronglySorted lt (sessions w).*2 ∧
  roster_entries w = (sessions w).*2.
Proof.
  intros Hw.
  assert (StronglySorted lt (sessions w).*1 ∧
          StronglySorted lt (sessions w).*2) as [Hk Hv].
  { destruct Hw as [events ->].
    induction events as [|e events IH] using rev_ind.
    - split; constructor.
    - rewrite run_snoc. apply sorted_react; [|done].
      apply Inv_run, Inv_init. }
  split; [done|]. split; [done|].
  unfold roster_entries. apply filter_all.
  intros r ([ws r'] & -> & Hin)%list_elem_of_fmap.
  by apply (inv_entry w (reachable_Inv w Hw) ws).
Qed.

(** X5.  Nothing but an admission puts a session in the map or adds a
    listener: a message, close or error event leaves in the map a
    subsequence of what was there, in the same order, adds no listener and
    makes no session object. *)
Theorem only_admission_adds e w :
  (∀ request, e ≠ Fetch request) →
  sublist (sessions (react e w)) (sessions w) ∧
  listeners (react e w) = listeners w ∧
  length (heap (react e w)) = length (heap w).
Proof.
  intros Hnot. destruct e as [request|ws data|ws|ws]; simpl.
  - by destruct (Hnot request).
  - apply (dispatch_shrinks (λ c w, (on_message c data w).1)).
    intros c w'. split; [apply sublist_on_message|].
    split; [apply on_message_listeners|apply same_objects_on_message].
  - apply (dispatch_shrinks on_close).
    intros c w'. split; [apply sublist_on_close|].
    split; [apply on_close_listeners|apply same_objects_on_close].
  - apply (dispatch_shrinks on_error).
    intros c w'. split; [apply sublist_on_error|].
    split; [apply on_error_listeners|apply same_objects_on_error].
Qed.

(** *** Events on the socket of a registered session *)

(** X6.  From a reachable state, a close event on the socket of a
    registered session removes that session from the map, broadcasts the
    roster of the others and then the notice that names it; an error event
    removes it and broadcasts that roster.  The roster is sent once to
    each of the other sessions of the map, in the order of the map; the
    notice is sent once to each of those the roster broadcast left in the
    map, which are the sessions an error event leaves; nothing is sent on
    the socket of the departed session.  Every registered session has the
    listeners that do this. *)
Theorem close_and_error_events_evict w ws r :
  reachable w → (ws, r) ∈ sessions w →
  let remaining := Map_delete ws (sessions w) in
  let userList :=
    UserListMessage ((λ e, username (deref w e.2)) <$> remaining) in
  let notice :=
    ChatMessage (lit "System")
      (JString (username (deref w r) ++ lit " left the chat"))
      (clock (ticks w)) in
  let w1 := react (OnClose ws) w in
  let w2 := react (OnError ws) w in
  (ws ∉ (sessions w1).*1) ∧ (r ∉ (sessions w1).*2) ∧
  stringified (since w w1) = [userList; notice] ∧
  (ws ∉ (sessions w2).*1) ∧ (r ∉ (sessions w2).*2) ∧
  stringified (since w w2) = [userList] ∧
  sends (since w w2) = ((λ e, (e.1, JSON_stringify userList)) <$> remaining) ∧
  sends (since w w1)
  = ((λ e, (e.1, JSON_stringify userList)) <$> remaining)
    ++ ((λ e, (e.1, JSON_stringify notice)) <$> sessions w2) ∧
  sublist (sessions w2) remaining ∧
  sublist (sessions w1) (sessions w2) ∧
  (ws ∉ (sends (since w w1)).*1).
Proof.
  intros Hw Hin remaining userList notice w1 w2.
  pose proof (registered_closure w ws r Hw Hin) as Hc.
  destruct (react_runs_the_listener w _ Hw Hc) as (Hclose & Herror & _).
  destruct (departures_on_close_and_on_error _ w Hw Hc)
    as [[[[? ?] ?] Hs1] [[[? ?] ?] Hs2]].
  unfold w1, w2. cbn [c_webSocket] in Hclose, Herror.
  rewrite Hclose, Herror.
  split; [done|]. split; [done|]. split; [done|].
  split; [done|]. split; [done|]. split; [done|].
  assert (sublist (sessions (on_error (mkClosure ws r (username (deref w r)))
                               w)) remaining) as Hreached.
  { rewrite on_error_unfold, broadcastUserList_unfold.
    apply broadcast_sublist. }
  split; [exact Hs2|]. split; [exact Hs1|]. split; [exact Hreached|]. split.
  - rewrite on_close_unfold, on_error_unfold. cbv zeta.
    exact (broadcast_sublist _ (toISOString_now _).2).
  - rewrite Hs1. unfold to_all. rewrite fmap_app, <- !list_fmap_compose.
    intros [Hsent|Hsent]%elem_of_app;
      apply (Map_delete_keys ws (sessions w)); [done|].
    eapply elem_of_sublist; [exact Hsent|]. by apply fmap_sublist.
Qed.

(** X7.  From a reachable state, an error event followed by a close event
    on the socket of a registered session ends with the departure notice
    after all: the close listener finds the session already gone,
    broadcasts the roster of all the sessions in the map and then the
    notice that names the departed one, and puts nobody back.  The roster
    is sent once to each session of the map, and the notice once to each
    of those the roster broadcast left in it. *)
Theorem close_after_error_announces w ws r :
  reachable w → (ws, r) ∈ sessions w →
  let w1 := react (OnError ws) w in
  let w2 := react (OnClose ws) w1 in
  let userList := UserListMessage (registered_usernames w1) in
  let notice :=
    ChatMessage (lit "System")
      (JString (username (deref w r) ++ lit " left the chat"))
      (clock (ticks w)) in
  let reached :=
    sessions (broadcastUserList
                (evicted (mkClosure ws r (username (deref w r))) w1)) in
  stringified (since w1 w2) = [userList; notice] ∧
  sublist (sessions w2) (sessions w1) ∧
  sends (since w1 w2)
  = ((λ e, (e.1, JSON_stringify userList)) <$> sessions w1)
    ++ ((λ e, (e.1, JSON_stringify notice)) <$> reached) ∧
  sublist reached (sessions w1) ∧
  sublist (sessions w2) reached ∧
  (ws ∉ (sends (since w1 w2)).*1).
Proof.
  intros Hw Hin w1 w2 userList notice reached.
  pose proof (registered_closure w ws r Hw Hin) as Hc.
  set (c := mkClosure ws r (username (deref w r))) in *.
  destruct (react_runs_the_listener w c Hw Hc) as (_ & Herror & _).
  cbn [c_webSocket c] in Herror.
  assert (reachable w1) as Hw1 by by apply reachable_react.
  assert (c ∈ listeners w1) as Hc1.
  { unfold w1. by rewrite Herror, on_error_listeners. }
  destruct (react_runs_the_listener w1 c Hw1 Hc1) as (Hclose & _).
  cbn [c_webSocket c] in Hclose.
  destruct (departures_on_close_and_on_error c w1 Hw1 Hc1)
    as [[[_ Hs] Hsends] _].
  assert (ws ∉ (sessions w1).*1) as Hgone.
  { unfold w1. rewrite Herror.
    apply (deleted_gone c w _ (reachable_Inv w Hw) Hc), on_error_sessions. }
  assert (ticks w1 = ticks w) as Hticks.
  { unfold w1. rewrite Herror, on_error_unfold, broadcastUserList_unfold.
    by rewrite (proj2 (proj2 (broadcast_frame _ _))). }
  assert (sessions (evicted c w1) = sessions w1) as Hsame.
  { unfold evicted. cbn [sessions set_sessions c_webSocket c].
    by apply Map_delete_absent. }
  assert (departure_notice c w1 = notice) as Hnotice.
  { unfold departure_notice, notice. cbn [c_username c]. by rewrite Hticks. }
  assert (roster_without c w1 = registered_usernames w1) as Hroster.
  { unfold roster_without. cbn [c_webSocket c].
    by rewrite (Map_delete_absent _ _ Hgone). }
  assert (sublist reached (sessions w1)) as Hreached.
  { unfold reached. rewrite broadcastUserList_unfold, <- Hsame.
    apply broadcast_sublist. }
  assert (sends (since w1 w2)
          = ((λ e, (e.1, JSON_stringify userList)) <$> sessions w1)
            ++ ((λ e, (e.1, JSON_stringify notice)) <$> reached)) as Hsent.
  { unfold w2. rewrite Hclose, Hsends, Hnotice, Hroster.
    unfold to_all. by rewrite Hsame. }
  split; [|split; [|split; [|split; [|split]]]].
  - unfold w2. by rewrite Hclose, Hs, Hnotice, Hroster.
  - unfold w2. rewrite Hclose. apply sublist_on_close.
  - exact Hsent.
  - exact Hreached.
  - unfold w2, reached. rewrite Hclose, on_close_unfold. cbv zeta.
    exact (broadcast_sublist _ (toISOString_now _).2).
  - rewrite Hsent, fmap_app, <- !list_fmap_compose.
    intros [Hsent1|Hsent2]%elem_of_app.
    + by apply Hgone.
    + apply Hgone. eapply elem_of_sublist; [exact Hsent2|].
      by apply fmap_sublist.
Qed.

(** X8.  From a reachable state, a chat frame from a connection whose
    session is no longer in the map is still relayed: the message carries
    the username of that connection and goes to every registered session,
    and nothing is sent to the sender. *)
Theorem evicted_sender_still_relays c s data w :
  reachable w → c ∈ listeners w → c_webSocket c ∉ (sessions w).*1 →
  JSON_parse s = Some data → is_chat data = true →
  let chat :=
    ChatMessage (c_username c)
      (default JUndefined (get_property data (lit "text")))
      (clock (ticks w)) in
  let w' := (on_message c (Text s) w).1 in
  stringified (since w w') = [chat] ∧
  sends (since w w') = to_all chat w ∧
  c_webSocket c ∉ (sends (since w w')).*1.
Proof.
  intros HI%reachable_Inv Hc Hout Hs Hchat chat w'. unfold w'.
  rewrite (on_message_chat_since c s data w HI Hs Hchat).
  destruct (inv_closure w HI c Hc) as (_ & _ & ->). fold chat.
  rewrite broadcast_events_stringified, broadcast_events_to_all.
  split; [done|]. split; [done|].
  unfold to_all. rewrite <- list_fmap_compose.
  intros (e & Heq & Hin)%list_elem_of_fmap. simpl in Heq.
  apply Hout. rewrite Heq. by apply list_elem_of_fmap_2.
Qed.

(** *** [broadcast] and the sessions it drops *)

(** X9.  In a state that satisfies the invariant of the room, as every
    reachable state does, [broadcast] leaves in the map exactly the
    entries on whose socket no [send] of the call threw, in the order they
    had. *)
Theorem broadcast_keeps_exactly_the_reached m w :
  Inv w →
  sessions (broadcast m w)
  = filter (λ e, e.1 ∉ failures (since w (broadcast m w))) (sessions w).
Proof.
  intros HI. rewrite (broadcast_since m w HI), broadcast_sessions.
  apply filter_ext_in. intros [ws r] Hin. simpl. split.
  - intros Hq Hfail.
    destruct (broadcast_evicts m w ws r HI Hin Hfail) as [Hgone _].
    apply Hgone. apply list_elem_of_fmap. exists (ws, r). split; [done|].
    rewrite broadcast_sessions. by apply list_elem_of_filter.
  - intros Hreached. apply not_true_is_false. intros Hq.
    rewrite broadcast_unfold in Hq. unfold sweep, deref in Hq. simpl in Hq.
    apply fan_out_marked in Hq as [Hq|(ws' & Hin' & Hsend)].
    + destruct (inv_entry w HI ws r Hin) as (_ & _ & Hq').
      unfold deref in *. simpl in *. congruence.
    + destruct (inv_entry w HI ws r Hin) as (_ & Hws & _).
      destruct (inv_entry w HI ws' r Hin') as (_ & Hws' & _).
      apply Hreached, elem_of_failures. eexists.
      replace ws with ws' by congruence. exact Hsend.
    + intros [ws' r'] Hin'. by apply (inv_entry w HI).
Qed.

(** *** Admission *)

Lemma handleSession_since_joined ws name w :
  Inv w → (∀ r, r < length (heap w) → webSocket (deref w r) ≠ ws) →
  ws < sockets w → (∃ raw, name = trim raw) →
  Inv (joined ws name w) ∧
  sessions (joined ws name w) = sessions w ++ [(ws, length (heap w))] ∧
  roster (joined ws name w) = registered_usernames w ++ [name] ∧
  since w (handleSession ws name w) =
  Accept ws
  :: broadcast_events (UserListMessage (registered_usernames w ++ [name]))
       (joined ws name w)
  ++ broadcast_events
       (ChatMessage (lit "System")
          (JString (name ++ lit " joined the chat")) (clock (ticks w)))
       (broadcastUserList (joined ws name w)).
Proof.
  intros HI Hfresh Hlt Hraw. rewrite handleSession_joined.
  destruct (Inv_registered ws name w HI Hfresh Hlt Hraw) as [HI3 Heq].
  fold (joined ws name w) in Heq. rewrite Heq.
  set (w3 := set_sessions _ _) in *.
  pose proof (Inv_broadcastUserList w3 HI3) as HI4.
  split; [done|]. split; [done|].
  assert (ticks (broadcastUserList w3) = ticks w) as ->.
  { rewrite broadcastUserList_unfold.
    by rewrite (proj2 (proj2 (broadcast_frame _ _))). }
  rewrite <- (registered_usernames_snoc ws name w HI).
  fold w3. rewrite <- (roster_Inv w3 HI3). split; [done|].
  change (Accept ws :: ?a ++ ?b) with ([Accept ws] ++ a ++ b).
  rewrite app_assoc. apply (since_trans _ (broadcastUserList w3)).
  - rewrite broadcastUserList_unfold.
    rewrite broadcast_trace by by apply Inv_keys.
    unfold w3 at 1. cbn [trace set_sessions set_heap log].
    by rewrite <- app_assoc.
  - unfold add_listener. cbn [trace].
    rewrite broadcast_trace by by apply Inv_keys, Inv_tick. done.
Qed.

Lemma admission_Inv request raw w :
  Inv w → upgrade request = Some (lit "websocket") →
  username_param request = Some raw → ¬ blank raw →
  let w1 := (WebSocketPair w).2 in
  let w3 := joined (S (sockets w)) (trim raw) w1 in
  (fetch request w).1 = handleSession (S (sockets w)) (trim raw) w1 ∧
  Inv w3 ∧
  sessions w3 = sessions w ++ [(S (sockets w), length (heap w))] ∧
  roster w3 = registered_usernames w ++ [trim raw] ∧
  since w (fetch request w).1 =
  Accept (S (sockets w))
  :: broadcast_events
       (UserListMessage (registered_usernames w ++ [trim raw])) w3
  ++ broadcast_events
       (ChatMessage (lit "System")
          (JString (trim raw ++ lit " joined the chat")) (clock (ticks w)))
       (broadcastUserList w3).
Proof.
  intros HI Hup Hname Hraw w1 w3.
  assert ((fetch request w).1 = handleSession (S (sockets w)) (trim raw) w1)
    as Hfetch.
  { rewrite fetch_unfold, Hup, Hname.
    rewrite bool_decide_eq_true_2 by done.
    assert (raw ≠ []) by (intros ->; apply Hraw; constructor).
    assert (trim raw ≠ []) by (by intros ?%trim_blank).
    rewrite !bool_decide_eq_false_2; [done|by destruct (trim raw)|done]. }
  split; [done|]. rewrite Hfetch.
  destruct (handleSession_since_joined (S (sockets w)) (trim raw) w1)
    as (HI3 & Hs3 & Hr3 & Hsince).
  - by apply Inv_WebSocketPair.
  - intros r Hr. pose proof (inv_sockets w HI r Hr).
    unfold w1, deref in *. simpl. lia.
  - unfold w1. simpl. lia.
  - by eexists.
  - split; [done|]. split; [done|]. split; [done|].
    change (since w ?x) with (since w1 x). exact Hsince.
Qed.

Lemma admission request raw w :
  reachable w → upgrade request = Some (lit "websocket") →
  username_param request = Some raw → ¬ blank raw →
  let w1 := (WebSocketPair w).2 in
  let w3 := joined (S (sockets w)) (trim raw) w1 in
  (fetch request w).1 = handleSession (S (sockets w)) (trim raw) w1 ∧
  Inv w3 ∧
  sessions w3 = sessions w ++ [(S (sockets w), length (heap w))] ∧
  roster w3 = registered_usernames w ++ [trim raw] ∧
  since w (fetch request w).1 =
  Accept (S (sockets w))
  :: broadcast_events
       (UserListMessage (registered_usernames w ++ [trim raw])) w3
  ++ broadcast_events
       (ChatMessage (lit "System")
          (JString (trim raw ++ lit " joined the chat")) (clock (ticks w)))
       (broadcastUserList w3).
Proof. intros HI%reachable_Inv. by apply admission_Inv. Qed.

(** X10.  From a reachable state, a request with the right Upgrade header
    and a username that is not blank is admitted: the listeners of the new
    session are added, on the server socket of the new pair and for the
    trimmed username; the roster of those registered before followed by
    the newcomer is broadcast first, and then the notice from "System"
    with the text "<username> joined the chat".  The roster is sent once
    to each session of the old map and then to the newcomer; the notice is
    sent once to each of those the roster broadcast left in the map; and
    the map ends as a subsequence of these. *)
Theorem admission_announces request raw w :
  reachable w → upgrade request = Some (lit "websocket") →
  username_param request = Some raw → ¬ blank raw →
  let name := trim raw in
  let w' := (fetch request w).1 in
  let everyone := sessions w ++ [(S (sockets w), length (heap w))] in
  let userList := UserListMessage (registered_usernames w ++ [name]) in
  let notice :=
    ChatMessage (lit "System") (JString (name ++ lit " joined the chat"))
      (clock (ticks w)) in
  let reached :=
    sessions (broadcastUserList
                (joined (S (sockets w)) name (WebSocketPair w).2)) in
  listeners w'
  = listeners w ++ [mkClosure (S (sockets w)) (length (heap w)) name] ∧
  stringified (since w w') = [userList; notice] ∧
  sublist (sessions w') everyone ∧
  sends (since w w')
  = ((λ e, (e.1, JSON_stringify userList)) <$> everyone)
    ++ ((λ e, (e.1, JSON_stringify notice)) <$> reached) ∧
  sublist reached everyone ∧
  sublist (sessions w') reached.
Proof.
  intros Hw Hup Hname Hraw name w' everyone userList notice reached.
  destruct (admission request raw w Hw Hup Hname Hraw)
    as (Hfetch & _ & Hs3 & _ & Hsince).
  unfold w'. rewrite Hsince, Hfetch.
  split; [|split; [|split; [|split; [|split]]]].
  - exact (handleSession_listeners _ _ (WebSocketPair w).2).
  - change (stringified (Accept ?a :: ?l)) with (stringified l).
    by rewrite stringified_app, !broadcast_events_stringified.
  - unfold everyone. rewrite <- Hs3. apply sublist_handleSession.
  - change (sends (Accept ?a :: ?l)) with (sends l).
    rewrite sends_app, !broadcast_events_to_all. unfold to_all.
    by rewrite Hs3.
  - unfold reached, everyone.
    rewrite <- Hs3, broadcastUserList_unfold. apply broadcast_sublist.
  - unfold reached. rewrite handleSession_joined.
    unfold add_listener. cbn [sessions].
    exact (broadcast_sublist _ (toISOString_now _).2).
Qed.

(** X11.  When no [send] throws during such an admission, the map ends as
    the old map followed by the new session, and the roster and then the
    join notice are each sent once to every session of that map, the
    newcomer included. *)
Theorem admission_without_failure request raw w :
  reachable w → upgrade request = Some (lit "websocket") →
  username_param request = Some raw → ¬ blank raw →
  failures (since w (fetch request w).1) = [] →
  let name := trim raw in
  let everyone := sessions w ++ [(S (sockets w), length (heap w))] in
  let userList := UserListMessage (registered_usernames w ++ [name]) in
  let notice :=
    ChatMessage (lit "System") (JString (name ++ lit " joined the chat"))
      (clock (ticks w)) in
  sessions (fetch request w).1 = everyone ∧
  sends (since w (fetch request w).1)
  = ((λ e, (e.1, JSON_stringify userList)) <$> everyone)
    ++ ((λ e, (e.1, JSON_stringify notice)) <$> everyone).
Proof.
  intros Hw Hup Hname Hraw Hnone name everyone userList notice.
  destruct (admission request raw w Hw Hup Hname Hraw)
    as (Hfetch & HI3 & Hs3 & Hr3 & Hsince).
  rewrite Hsince in Hnone |- *.
  set (w3 := joined _ _ _) in *.
  change (failures (Accept ?a :: ?l)) with (failures l) in Hnone.
  rewrite failures_app in Hnone. apply app_eq_nil in Hnone as [Hn1 Hn2].
  assert (sessions (broadcastUserList w3) = everyone) as Hs4.
  { unfold everyone. rewrite <- Hs3, broadcastUserList_unfold.
    apply broadcast_keeps; [done|]. by rewrite Hr3. }
  split.
  - rewrite Hfetch, handleSession_joined. fold w3.
    unfold add_listener. cbn [sessions].
    rewrite <- Hs4. etrans; [apply broadcast_keeps|reflexivity].
    + by apply Inv_tick, Inv_broadcastUserList.
    + assert (ticks (broadcastUserList w3) = ticks w) as ->; [|exact Hn2].
      rewrite broadcastUserList_unfold.
      by rewrite (proj2 (proj2 (broadcast_frame _ _))).
  - change (sends (Accept ?a :: ?l)) with (sends l).
    rewrite sends_app, !broadcast_events_to_all. unfold to_all.
    by rewrite Hs3, Hs4.
Qed.

(** *** The worker entry *)

(** X12.  The worker entry hands a request to the room only when its path
    is "/api/ws", its Upgrade header is "websocket" and its username is
    present and not empty; every other request on another path or without
    that header goes to the server entry of the framework and leaves the
    room alone.  What it hands on the room never answers with 426: the
    answer is 400 when the username is blank, with the room unchanged, and
    otherwise the 101 of an admission. *)
Theorem entry_answers incoming w :
  let req := request incoming in
  (pathname incoming ≠ lit "/api/ws" ∨
   upgrade req ≠ Some (lit "websocket") →
   ServerEntry.fetch incoming w = (w, StartServerEntry)) ∧
  (pathname incoming = lit "/api/ws" →
   upgrade req = Some (lit "websocket") →
   (username_param req = None ∨
    ∃ u, username_param req = Some u ∧ blank u) →
   ServerEntry.fetch incoming w
   = (w, Responded (Resp 400 (Some (lit "Username is required")) None))) ∧
  (pathname incoming = lit "/api/ws" →
   upgrade req = Some (lit "websocket") →
   ∀ u, username_param req = Some u → ¬ blank u →
        ServerEntry.fetch incoming w
        = ((fetch req w).1,
           Responded (Resp 101 None (Some (sockets w))))) ∧
  (∀ response,
     (ServerEntry.fetch incoming w).2 = Responded response →
     status response = 101 ∨ status response = 400).
Proof.
  intros req. unfold ServerEntry.fetch. fold req.
  pose proof (fetch_refuses_blank req w) as H400.
  pose proof (λ Hup u, fetch_admits req w u Hup) as H101.
  repeat split.
  - intros [Hpath|Hup].
    + by rewrite bool_decide_eq_false_2.
    + destruct (bool_decide (pathname incoming = _)); [|done].
      by rewrite bool_decide_eq_false_2.
  - intros Hpath Hup Hname. rewrite !bool_decide_eq_true_2 by done.
    destruct Hname as [->|(u & Hu & Hb)]; [done|]. rewrite Hu.
    destruct (bool_decide (u = [])); [done|].
    rewrite (H400 Hup); [done|]. right. by exists u.
  - intros Hpath Hup u Hu Hb. rewrite !bool_decide_eq_true_2, Hu by done.
    rewrite bool_decide_eq_false_2
      by (intros ->; apply Hb; constructor).
    specialize (H101 Hup u Hu Hb).
    destruct (fetch req w) as [w1 response]. simpl in *. by subst.
  - intros response.
    destruct (bool_decide (pathname incoming = _)); [|done].
    destruct (bool_decide (upgrade req = _)) eqn:Hup; [|done].
    apply bool_decide_eq_true in Hup.
    destruct (username_param req) as [u|] eqn:Hu;
      [|intros [= <-]; by right].
    destruct (bool_decide (u = [])); [intros [= <-]; by right|].
    destruct (decide (blank u)) as [Hb|Hb].
    + rewrite (H400 Hup) by (right; by exists u). intros [= <-]. by right.
    + specialize (H101 Hup u eq_refl Hb).
      destruct (fetch req w) as [w1 response']. simpl in *. subst.
      intros [= <-]. by left.
Qed.

(** *** More on [broadcast] and on chat frames *)

(** X13.  A [send] that throws does not stop the fan-out: whatever the
    state and whichever sends fail, [broadcast] serializes the message once
    and calls [send] exactly once for every entry of the map, on the socket
    of its session and with that payload, in the order of the map. *)
Theorem broadcast_tries_every_session m w :
  stringified (since w (broadcast m w)) = [m] ∧
  sends (since w (broadcast m w))
  = (λ e, (webSocket (deref w e.2), JSON_stringify m)) <$> sessions w.
Proof.
  rewrite (since_app _ _ _ (broadcast_trace_sockets m w)). simpl.
  by rewrite deliveries_stringified, deliveries_sends, <- list_fmap_compose.
Qed.

(** X14.  From a reachable state, a frame of type "message" is relayed
    exactly when its [text] is truthy, and then with that value as it was
    parsed, whatever its JSON type; when [text] is missing, empty, zero,
    false or null the frame is ignored: nothing is sent and the room stays
    as it was. *)
Theorem chat_relays_truthy_text_only c s data w :
  reachable w → c ∈ listeners w → JSON_parse s = Some data →
  get_property data (lit "type") = Some (JString (lit "message")) →
  let text := default JUndefined (get_property data (lit "text")) in
  let chat := ChatMessage (c_username c) text (clock (ticks w)) in
  (truthy text = true →
   stringified (since w (on_message c (Text s) w).1) = [chat] ∧
   sends (since w (on_message c (Text s) w).1) = to_all chat w) ∧
  (truthy text = false → ignored c (Text s) w).
Proof.
  intros HI%reachable_Inv Hc Hs Htype text chat. split; intros Htext.
  - assert (is_chat data = true) as Hchat.
    { unfold is_chat. rewrite Htype. simpl. fold text. by rewrite Htext. }
    rewrite (on_message_chat_since c s data w HI Hs Hchat).
    destruct (inv_closure w HI c Hc) as (_ & _ & ->). fold text chat.
    by rewrite broadcast_events_stringified, broadcast_events_to_all.
  - unfold ignored.
    assert (message_try c (Text s) w = (w, true)) as Htry.
    { apply (message_try_other c s data w Hs).
      - rewrite Htype. by eexists.
      - unfold is_chat. rewrite Htype. simpl. fold text. by rewrite Htext.
      - unfold is_ping. by rewrite Htype. }
    by rewrite on_message_unfold, Htry.
Qed.

(** *** The rosters of a reaction *)





End Properties.

(** ** The room on concrete inputs *)

Example trim_strips_both_ends :
  trim (lit "  alice ") = lit "alice" ∧ trim [160; 9; 32]%N = [].
Proof. by vm_compute. Qed.

Example blank_username_is_refused :
  (fetch (H := sample []) (mkRequest (Some (lit "websocket")) (Some (lit "   ")))
     init).2
  = Resp 400 (Some (lit "Username is required")) None.
Proof. by vm_compute. Qed.

(** alice and bob connect, then bob disconnects: the rosters are
    [alice], [alice; bob] and [alice], and the notice names bob. *)
Example rosters_of_a_session :
  rosters (trace two_users) = [[lit "alice"]; [lit "alice"; lit "bob"]] ∧
  stringified (since two_users (react (H := sample []) (OnClose 3) two_users))
  = [UserListMessage [lit "alice"];
     ChatMessage (lit "System") (JString (lit "bob left the chat"))
       (sample_clock 2)].
Proof. by vm_compute. Qed.

Example failed_send_drops_alice :
  sessions (react (H := sample [1])
              (OnMessage 3 (Text (json "{'type':'message','text':'hi'}")))
              two_users)
  = [(3, 1)].
Proof. by vm_compute. Qed.

(** ** Instances of the main results *)

Lemma two_users_reachable : reachable (H := sample []) two_users.
Proof. by exists alice_and_bob. Qed.

Lemma alice_listens : alice ∈ listeners two_users.
Proof. vm_compute. left. Qed.

Lemma bob_listens : bob ∈ listeners two_users.
Proof. vm_compute. right. left. Qed.

Lemma unparsable_text_gets_error_reply_witness :
  error_reply_only (H := sample []) alice (Text (lit "not json")) two_users.
Proof.
  refine (proj1 (unparsable_text_gets_error_reply (H := sample []) alice
                   two_users) (lit "not json") _).
  vm_compute. reflexivity.
Defined.

(** C1 as stated fails on a frame that is not text: the listener skips it,
    and no error message is serialized or sent. *)
Lemma binary_frame_gets_no_reply :
  alice ∈ listeners two_users ∧
  (c_webSocket alice, c_session alice) ∈ sessions two_users ∧
  sends (since two_users (on_message (H := sample []) alice Binary two_users).1)
  = [] ∧
  ¬ error_reply_only (H := sample []) alice Binary two_users.
Proof.
  split; [exact alice_listens|]. split; [vm_compute; left|].
  split; [by vm_compute|].
  intros (Hs & _). vm_compute in Hs. discriminate Hs.
Qed.

(** C2.  With alice and bob in the room, the close signal on alice's socket
    evicts her, broadcasts the roster and then the notice
    "alice left the chat" from "System"; the error signal on the same socket
    evicts her and broadcasts the roster, but serializes no departure
    notice. *)
Theorem error_listener_omits_departure_notice :
  reachable (H := sample []) two_users ∧
  alice ∈ listeners two_users ∧
  stringified (since two_users (on_close (H := sample []) alice two_users))
  = [UserListMessage [lit "bob"];
     ChatMessage (lit "System") (JString (lit "alice left the chat"))
       (sample_clock 2)] ∧
  stringified (since two_users (on_error (H := sample []) alice two_users))
  = [UserListMessage [lit "bob"]] ∧
  gone alice (on_error (H := sample []) alice two_users) ∧
  ¬ departure_announced (H := sample []) alice two_users
      (on_error (H := sample []) alice two_users).
Proof.
  split; [exact two_users_reachable|]. split; [exact alice_listens|].
  split; [by vm_compute|]. split; [by vm_compute|]. split.
  - apply (departures_on_close_and_on_error (H := sample []) alice two_users
             two_users_reachable alice_listens).
  - intros [_ Hs]. vm_compute in Hs. discriminate Hs.
Qed.

Lemma broadcast_sends_one_payload_to_each_witness :
  length (sends (since two_users
                   (broadcast (H := sample []) (UserListMessage []) two_users)))
  = length (sessions two_users).
Proof.
  refine (proj2 (broadcast_sends_one_payload_to_each (H := sample [])
                   (UserListMessage []) two_users _)).
  vm_compute. reflexivity.
Defined.

Lemma registered_sessions_are_not_quit_witness :
  quit (deref two_users 0) = false.
Proof.
  refine (proj1 (registered_sessions_are_not_quit (H := sample []) two_users
                   two_users_reachable) 1 0 _).
  vm_compute. left.
Defined.



Lemma chat_frame_is_broadcast_to_all_witness :
  (on_message (H := sample []) bob
     (Text (json "{'type':'message','text':'hi'}")) two_users).2
  = Fulfilled.
Proof.
  refine (proj1 (chat_frame_is_broadcast_to_all (H := sample []) bob
                   (json "{'type':'message','text':'hi'}") chat_hi (lit "hi")
                   two_users two_users_reachable bob_listens _ _ _ _ _)).
  - vm_compute. right. left.
  - vm_compute. reflexivity.
  - vm_compute. reflexivity.
  - vm_compute. reflexivity.
  - discriminate.
Defined.

Lemma ping_gets_one_pong_witness :
  sessions (on_message (H := sample []) alice
              (Text (json "{'type':'ping','id':'abc'}")) two_users).1
  = sessions two_users.
Proof.
  refine (proj1 (proj2 (proj2 (proj2
            (ping_gets_one_pong (H := sample []) alice
               (json "{'type':'ping','id':'abc'}") ping_abc two_users _ _))))).
  - vm_compute. reflexivity.
  - vm_compute. reflexivity.
Defined.

Lemma other_frames_are_ignored_but_null_witness :
  ignored (H := sample []) alice (Text (json "{'type':'typing'}")) two_users.
Proof.
  refine (proj1 (other_frames_are_ignored_but_null (H := sample []) alice
                   (json "{'type':'typing'}") typing two_users _) _ _ _ _).
  - vm_compute. reflexivity.
  - discriminate.
  - discriminate.
  - vm_compute. reflexivity.
  - vm_compute. reflexivity.
Defined.

(** C9 as stated fails on the text [null]: it parses, it is neither a chat
    frame nor a ping frame, and the listener answers with the error reply. *)
Lemma null_frame_gets_error_reply :
  JSON_parse (Platform := sample []) (json "null") = Some JNull ∧
  is_chat JNull = false ∧ is_ping JNull = false ∧
  sends (since two_users
           (on_message (H := sample []) alice (Text (json "null")) two_users).1)
  = [(1, sample_stringify invalid_format)] ∧
  ¬ ignored (H := sample []) alice (Text (json "null")) two_users.
Proof.
  split; [by vm_compute|]. split; [done|]. split; [done|].
  split; [by vm_compute|].
  unfold ignored. intros Hs. apply (f_equal (λ x, length (trace x.1))) in Hs.
  vm_compute in Hs. discriminate Hs.
Qed.

Lemma error_reply_is_constant_witness :
  on_message (H := sample []) alice (Text (lit "not json")) two_users
  = on_message (H := sample []) alice (Text (lit "{oops")) two_users.
Proof.
  refine (proj1 (error_reply_is_constant (H := sample []) alice
                   (lit "not json") (lit "{oops") two_users _ _)).
  - vm_compute. reflexivity.
  - vm_compute. reflexivity.
Defined.

(** ** Instances of the further results *)

Lemma carol_is_not_blank : ¬ blank (lit " carol ").
Proof. intros Hb%trim_blank. vm_compute in Hb. discriminate Hb. Qed.

Lemma bob_alone_reachable : reachable (H := sample []) bob_alone.
Proof. by exists (alice_and_bob ++ [OnError 1]). Qed.

Lemma fetch_answers_witness :
  fetch (H := sample []) (mkRequest (Some (lit "websocket")) (Some (lit "   ")))
    two_users
  = (two_users, Resp 400 (Some (lit "Username is required")) None).
Proof.
  refine (proj1 (proj2 (fetch_answers (H := sample [])
                          (mkRequest (Some (lit "websocket")) (Some (lit "   ")))
                          two_users)) _ _).
  - reflexivity.
  - right. exists (lit "   "). split; [reflexivity|].
    repeat constructor.
Defined.

Lemma sessions_never_change_nor_return_witness :
  username (deref (run (H := sample []) [OnClose 1] two_users) 0)
  = username (deref two_users 0).
Proof.
  refine (proj1 (proj2 (sessions_never_change_nor_return (H := sample [])
                          two_users [OnClose 1] 0 _))).
  vm_compute. lia.
Defined.

Lemma registered_usernames_are_trimmed_witness :
  ∃ request raw pre suf,
    Fetch request ∈ alice_and_bob ∧
    upgrade request = Some (lit "websocket") ∧
    username_param request = Some raw ∧ lit "alice" = trim raw ∧
    raw = pre ++ lit "alice" ++ suf ∧ blank pre ∧ blank suf.
Proof.
  refine (proj2 (proj2 (proj2 (proj2
            (registered_usernames_are_trimmed (H := sample []) alice_and_bob
               (lit "alice") _))))).
  vm_compute. left.
Defined.

Lemma map_is_in_admission_order_witness :
  StronglySorted lt (sessions two_users).*2.
Proof.
  exact (proj1 (proj2 (map_is_in_admission_order (H := sample []) two_users
                         two_users_reachable))).
Defined.

Lemma only_admission_adds_witness :
  listeners (react (H := sample []) (OnClose 1) two_users)
  = listeners two_users.
Proof.
  refine (proj1 (proj2 (only_admission_adds (H := sample []) (OnClose 1)
                          two_users _))).
  intros request. discriminate.
Defined.

Lemma close_and_error_events_evict_witness :
  1 ∉ (sessions (react (H := sample []) (OnClose 1) two_users)).*1.
Proof.
  refine (proj1 (close_and_error_events_evict (H := sample []) two_users 1 0
                   two_users_reachable _)).
  vm_compute. left.
Defined.

Lemma close_after_error_announces_witness :
  sublist
    (sessions (react (H := sample []) (OnClose 1)
                 (react (H := sample []) (OnError 1) two_users)))
    (sessions (react (H := sample []) (OnError 1) two_users)).
Proof.
  refine (proj1 (proj2 (close_after_error_announces (H := sample [])
                          two_users 1 0 two_users_reachable _))).
  vm_compute. left.
Defined.

Lemma evicted_sender_still_relays_witness :
  c_webSocket alice
  ∉ (sends (since bob_alone
              (on_message (H := sample []) alice
                 (Text (json "{'type':'message','text':'hi'}")) bob_alone).1)).*1.
Proof.
  refine (proj2 (proj2 (evicted_sender_still_relays (H := sample []) alice
                          (json "{'type':'message','text':'hi'}") chat_hi
                          bob_alone bob_alone_reachable _ _ _ _))).
  - vm_compute. left.
  - vm_compute. intros Hin. apply list_elem_of_singleton in Hin.
    discriminate Hin.
  - vm_compute. reflexivity.
  - vm_compute. reflexivity.
Defined.

Lemma broadcast_keeps_exactly_the_reached_witness :
  sessions (broadcast (H := sample [1]) (UserListMessage []) two_users)
  = filter
      (λ e, e.1 ∉ failures
                    (since two_users
                       (broadcast (H := sample [1]) (UserListMessage [])
                          two_users)))
      (sessions two_users).
Proof.
  exact (broadcast_keeps_exactly_the_reached (H := sample [1])
           (UserListMessage []) two_users
           (reachable_Inv (H := sample []) two_users two_users_reachable)).
Defined.

Lemma admission_announces_witness :
  listeners (fetch (H := sample []) carol_request two_users).1
  = listeners two_users
    ++ [mkClosure (S (sockets two_users)) (length (heap two_users))
          (trim (lit " carol "))].
Proof.
  refine (proj1 (admission_announces (H := sample []) carol_request
                   (lit " carol ") two_users two_users_reachable _ _
                   carol_is_not_blank)).
  - reflexivity.
  - reflexivity.
Defined.

Lemma admission_without_failure_witness :
  sessions (fetch (H := sample []) carol_request two_users).1
  = sessions two_users ++ [(S (sockets two_users), length (heap two_users))].
Proof.
  refine (proj1 (admission_without_failure (H := sample []) carol_request
                   (lit " carol ") two_users two_users_reachable _ _
                   carol_is_not_blank _)).
  - reflexivity.
  - reflexivity.
  - vm_compute. reflexivity.
Defined.

Lemma entry_answers_witness :
  ServerEntry.fetch (H := sample []) (mkIncoming (lit "/") carol_request)
    two_users
  = (two_users, StartServerEntry).
Proof.
  refine (proj1 (entry_answers (H := sample [])
                   (mkIncoming (lit "/") carol_request) two_users) _).
  left. intros Heq. vm_compute in Heq. discriminate Heq.
Defined.

Lemma chat_relays_truthy_text_only_witness :
  stringified
    (since two_users
       (on_message (H := sample []) bob
          (Text (json "{'type':'message','text':'hi'}")) two_users).1)
  = [ChatMessage (c_username bob)
       (default JUndefined (get_property chat_hi (lit "text")))
       (clock (Platform := sample []) (ticks two_users))].
Proof.
  refine (proj1 (proj1 (chat_relays_truthy_text_only (H := sample []) bob
                          (json "{'type':'message','text':'hi'}") chat_hi
                          two_users two_users_reachable bob_listens _ _) _)).
  - vm_compute. reflexivity.
  - vm_compute. reflexivity.
  - vm_compute. reflexivity.
Defined.
